(** * processing-pipeline: the CSV-to-SQLite loader of [challenge.ts]

    A shallow embedding of [src/challenge.ts].  The program is event driven:
    [processCSV] registers listeners on a Node stream and the runtime calls
    them one at a time.  A listener runs to completion, or up to its first
    [await]; the rest of an [async] listener runs when the awaited promise
    settles.  The embedding therefore is a transition system: the state holds
    what the closures of [processCSV] share (the [batch] array, the stream,
    the promise handed to the caller) and the storage, and every event the
    runtime can deliver is one [step]. *)

From stdpp Require Import gmap strings list fin_maps.

(** ** Errors and rows *)

(** The error kinds of the pipeline.  The source has no error classes of its
    own: the values come from https, fs, zlib/tar, fast-csv and knex. *)
Inductive error :=
  | NetworkError | IOError | ExtractionError | ParseError | StorageError
  | TypeError.

#[global] Instance error_eq_dec : EqDecision error.
Proof. solve_decision. Defined.

(** A promise as its caller sees it: not settled, resolved, or rejected with
    an error. *)
Inductive promise := Pending | Resolved | Rejected (e : error).

(** [Record<string, any>]: the fields of a row under the header's names. *)
Definition row := list (string * string).

(** What the parser hands to the stream: a record, or a failure. *)
Inductive item :=
  | Row (r : row)
  | Bad (e : error).

(** Modelled from the spec: [csv.parse({ headers: true })] comes from the
    fast-csv package, which is not part of the sources.  The header row names
    the fields, every later row maps to one record under those names, and a
    row whose field count differs from the header's is a [ParseError] that
    ends the stream. *)
Fixpoint parse_rows (header : list string) (lines : list (list string))
  : list item :=
  match lines with
  | [] => []
  | l :: ls =>
      if decide (length l = length header)
      then Row (zip header l) :: parse_rows header ls
      else [Bad ParseError]
  end.

(** Modelled from the spec: the parser applied to a whole file, first line
    the header (see [parse_rows]). *)
Definition csv_parse (lines : list (list string)) : list item :=
  match lines with
  | [] => []
  | header :: body => parse_rows header body
  end.

(** The records of the rows before the first malformed row. *)
Fixpoint good_records (header : list string) (lines : list (list string))
  : list row :=
  match lines with
  | [] => []
  | l :: ls =>
      if decide (length l = length header)
      then zip header l :: good_records header ls
      else []
  end.

(** ** The streaming batch loader, [processCSV] *)

Module Loader.

(** The listener an outstanding [insertBatch] call was made from; it decides
    what runs after the [await]. *)
Inductive listener := OnData | OnEnd.

(** A [db.batchInsert] call that has been made and has not settled.  knex
    cuts the array into chunks when the call is made, so the call holds the
    rows the array had at that moment. *)
Record insert := Insert { ins_rows : list row; ins_from : listener }.

Record state := State {
  source : list item;          (* parser output not yet delivered *)
  flowing : bool;              (* false after pause(), true after resume() *)
  ended : bool;                (* 'end' has been emitted *)
  destroyed : bool;            (* 'error' has been emitted *)
  batch : list row;            (* the accumulator array *)
  inflight : list insert;      (* outstanding db.batchInsert calls *)
  committed : list (list row); (* completed bulk inserts, oldest first *)
  result : promise;            (* the promise processCSV returns *)
  unhandled : list error       (* rejections of listener promises *)
}.

(** [fs.createReadStream(csvPath).pipe(csv.parse(..))] with the listeners
    attached: attaching the 'data' listener switches the stream to flowing
    mode. *)
Definition init (src : list item) : state :=
  State src true false false [] [] [] Pending [].

Definition set_flowing (b : bool) (s : state) : state :=
  State (source s) b (ended s) (destroyed s) (batch s) (inflight s)
        (committed s) (result s) (unhandled s).

Definition set_batch (b : list row) (s : state) : state :=
  State (source s) (flowing s) (ended s) (destroyed s) b (inflight s)
        (committed s) (result s) (unhandled s).

Definition set_source (src : list item) (s : state) : state :=
  State src (flowing s) (ended s) (destroyed s) (batch s) (inflight s)
        (committed s) (result s) (unhandled s).

Definition set_inflight (l : list insert) (s : state) : state :=
  State (source s) (flowing s) (ended s) (destroyed s) (batch s) l
        (committed s) (result s) (unhandled s).

Definition set_ended (s : state) : state :=
  State (source s) (flowing s) true (destroyed s) (batch s) (inflight s)
        (committed s) (result s) (unhandled s).

Definition set_destroyed (s : state) : state :=
  State (source s) (flowing s) (ended s) true (batch s) (inflight s)
        (committed s) (result s) (unhandled s).

Definition commit (rows : list row) (s : state) : state :=
  State (source s) (flowing s) (ended s) (destroyed s) (batch s) (inflight s)
        (committed s ++ [rows]) (result s) (unhandled s).

Definition drop_rejection (e : error) (s : state) : state :=
  State (source s) (flowing s) (ended s) (destroyed s) (batch s) (inflight s)
        (committed s) (result s) (e :: unhandled s).

(** A promise settles once: later calls of [resolve] or [reject] are
    ignored. *)
Definition settle (p : promise) (s : state) : state :=
  State (source s) (flowing s) (ended s) (destroyed s) (batch s) (inflight s)
        (committed s)
        (match result s with Pending => p | r => r end) (unhandled s).

Definition resolve : state -> state := settle Resolved.
Definition reject (e : error) : state -> state := settle (Rejected e).

(** [readStream.pause()] and [readStream.resume()]. *)
Definition pause : state -> state := set_flowing false.
Definition resume : state -> state := set_flowing true.

(** [insertBatch], up to its [await]: the call [db.batchInsert(table, batch,
    batchSize)] is made with the accumulator as it is.  knex refuses a chunk
    size below 1 with a [TypeError]; the [async] function then returns a
    rejected promise, and the listener that awaits it stops there. *)
Definition insertBatch_call (batchSize : nat) (from : listener) (s : state)
  : state :=
  if batchSize <? 1 then drop_rejection TypeError s
  else set_inflight (inflight s ++ [Insert (batch s) from]) s.

(** [insertBatch], after its [await], and the rest of the listener that
    awaited it: [batch.length = 0], then [readStream.resume()] in the 'data'
    listener, [resolve()] in the 'end' listener. *)
Definition insertBatch_return (from : listener) (s : state) : state :=
  let s := set_batch [] s in
  match from with
  | OnData => resume s
  | OnEnd => resolve s
  end.

(** The 'data' listener, up to its [await]. *)
Definition on_data (batchSize : nat) (r : row) (s : state) : state :=
  let s := set_batch (batch s ++ [r]) s in
  if batchSize <=? length (batch s)
  then insertBatch_call batchSize OnData (pause s)
  else s.

(** The 'end' listener, up to its [await]. *)
Definition on_end (batchSize : nat) (s : state) : state :=
  if 0 <? length (batch s)
  then insertBatch_call batchSize OnEnd s
  else resolve s.

(** The 'error' listener is [reject] itself. *)
Definition on_error (e : error) (s : state) : state := reject e s.

(** How an outstanding bulk insert ends.  knex runs [batchInsert] in one
    transaction: all rows of the call are stored, or none. *)
Inductive outcome := Done | Failed (e : error).

(** What the runtime can deliver.

    - [EvData]: the stream emits 'data' with the next record.  Node does so
      only in flowing mode: after [pause()] records stay in the stream's
      buffer until [resume()].
    - [EvError]: the parser reaches the malformed row; the stream emits
      'error' and is destroyed, it emits nothing afterwards.  The parser runs
      ahead of the listener: records it has produced and the stream has not
      delivered, those held back by [pause()] among them, are dropped.
    - [EvEnd]: the stream emits 'end', once, after the last record has been
      delivered.  [pause()] holds back 'data' only: Node schedules 'end' from
      the read that empties a buffer whose end is known, so 'end' is also
      delivered to a stream that the listener of the last record has paused.
    - [EvSettle k o]: the [k]-th outstanding [db.batchInsert] settles with
      [o], and the [async] listener that awaits it continues. *)
Inductive event :=
  | EvData
  | EvError
  | EvEnd
  | EvSettle (k : nat) (o : outcome).

(** The failure the parser will report on what is left of its output, if
    any. *)
Fixpoint first_bad (src : list item) : option error :=
  match src with
  | [] => None
  | Row _ :: rest => first_bad rest
  | Bad e :: _ => Some e
  end.

Definition step (batchSize : nat) (s : state) (ev : event) : option state :=
  match ev with
  | EvData =>
      match source s with
      | Row r :: rest =>
          if flowing s && negb (destroyed s)
          then Some (on_data batchSize r (set_source rest s))
          else None
      | _ => None
      end
  | EvError =>
      match first_bad (source s) with
      | Some e =>
          if destroyed s then None
          else Some (on_error e (set_destroyed (set_source [] s)))
      | None => None
      end
  | EvEnd =>
      match source s with
      | [] =>
          if ended s || destroyed s then None
          else Some (on_end batchSize (set_ended s))
      | _ => None
      end
  | EvSettle k o =>
      match inflight s !! k with
      | Some i =>
          let s := set_inflight (delete k (inflight s)) s in
          match o with
          | Done => Some (insertBatch_return (ins_from i) (commit (ins_rows i) s))
          | Failed e => Some (drop_rejection e s)
          end
      | None => None
      end
  end.

(** A run of the loader under a schedule of events; [None] when the schedule
    asks for an event that cannot happen. *)
Fixpoint run (batchSize : nat) (s : state) (tr : list event) : option state :=
  match tr with
  | [] => Some s
  | ev :: tr' =>
      match step batchSize s ev with
      | Some s' => run batchSize s' tr'
      | None => None
      end
  end.

(** [processCSV(csvPath, db, table, batchSize)] on a file whose parse is
    [src], under the schedule [tr]. *)
Definition processCSV (batchSize : nat) (src : list item) (tr : list event)
  : option state :=
  run batchSize (init src) tr.

(** The rows of the table after the load, and the number of bulk inserts. *)
Definition table_rows (s : state) : list row := concat (committed s).
Definition insert_count (s : state) : nat := length (committed s).

(** The schedule in which nothing overlaps: every bulk insert settles, with
    success, before the runtime delivers anything else.  [fill] is the number
    of records in the accumulator. *)
Fixpoint serial (batchSize fill : nat) (src : list item) : list event :=
  match src with
  | [] => EvEnd :: (if 0 <? fill then [EvSettle 0 Done] else [])
  | Row _ :: rest =>
      if batchSize <=? S fill
      then EvData :: EvSettle 0 Done :: serial batchSize 0 rest
      else EvData :: serial batchSize (S fill) rest
  | Bad _ :: _ => [EvError]
  end.

(** The groups a load without overlap stores: the records in order, cut each
    time the accumulator [acc] reaches the capacity, what is left at the end
    of the source last. *)
Fixpoint batches (batchSize : nat) (acc rows : list row) : list (list row) :=
  match rows with
  | [] => if 0 <? length acc then [acc] else []
  | r :: rows =>
      if batchSize <=? S (length acc)
      then (acc ++ [r]) :: batches batchSize [] rows
      else batches batchSize (acc ++ [r]) rows
  end.

(** An event other than the failure of a bulk insert. *)
Definition succeeds (ev : event) : bool :=
  match ev with
  | EvSettle _ (Failed _) => false
  | _ => true
  end.

End Loader.

(** ** The schema initializer, [setupTables] *)

Module Schema.

Inductive coltype := TInteger | TString.

Record column := Column {
  col_name : string;
  col_type : coltype;
  col_primary : bool
}.

#[global] Instance coltype_eq_dec : EqDecision coltype.
Proof. solve_decision. Defined.

#[global] Instance column_eq_dec : EqDecision column.
Proof. solve_decision. Defined.

(** [table.integer(name)], [table.integer(name).primary()] and
    [table.string(name)] of knex's table builder. *)
Definition integer (name : string) : column := Column name TInteger false.
Definition primary (c : column) : column :=
  Column (col_name c) (col_type c) true.
Definition string (name : string) : column := Column name TString false.

(** A table of the database: its column layout and its rows. *)
Record table := Table { columns : list column; rows : list row }.

(** The database: tables by name. *)
Abbreviation database := (gmap String.string table).

Inductive result := Ok (db : database) | Err (e : error).

(** [db.schema.hasTable(name)]. *)
Definition hasTable (name : String.string) (db : database) : bool :=
  bool_decide (is_Some (db !! name)).

(** [db.schema.createTable(name, builder)]: CREATE TABLE.  The storage engine
    refuses a name that is taken and a layout that names a column twice; a
    new table has no rows. *)
Definition createTable (name : String.string) (cols : list column)
    (db : database) : result :=
  if hasTable name db then Err StorageError
  else if bool_decide (NoDup (col_name <$> cols))
       then Ok (<[name := Table cols []]> db)
       else Err StorageError.

Definition organizations_columns : list column :=
  [ primary (integer "id");
    integer "index";
    string "organization id";
    string "name";
    string "country";
    integer "founded";
    string "website";
    string "description";
    string "number of employees";
    string "industry" ].

Definition customers_columns : list column :=
  [ primary (integer "id");
    integer "index";
    string "customer id";
    string "company";
    string "first name";
    string "last name";
    string "city";
    string "phone 1";
    string "phone 2";
    string "email";
    string "address";
    string "country";
    string "website";
    string "subscription";
    string "subscription date" ].

(** One "check and create" block of [setupTables]. *)
Definition ensureTable (name : String.string) (cols : list column)
    (db : database) : result :=
  if negb (hasTable name db) then createTable name cols db else Ok db.

Definition setupTables (db : database) : result :=
  match ensureTable "organizations" organizations_columns db with
  | Ok db => ensureTable "customers" customers_columns db
  | Err e => Err e
  end.

(** A database with the table [name] in it: as it is when the table is
    there, with a new empty table of layout [cols] otherwise. *)
Definition with_table (name : String.string) (cols : list column)
    (db : database) : database :=
  match db !! name with
  | Some _ => db
  | None => <[name := Table cols []]> db
  end.

End Schema.

(** ** The fetcher, [downloadFile] *)

Module Fetcher.

(** The [IncomingMessage] handed to the callback of [https.get]. *)
Record response := Response { statusCode : nat; body : String.string }.

(** What the request does: it fails ('error' on the request), a response
    arrives and its body with it, or a response arrives and the connection is
    lost before the body is complete ([body] is then what did arrive). *)
Inductive network :=
  | Unreachable
  | Answered (r : response)
  | CutShort (r : response).

(** What the write stream does: 'finish' once all that was piped into it is
    written, 'error' while writing, or 'error' at once because the
    destination cannot be opened. *)
Inductive disk := Finish | WriteError | CannotOpen.

(** Files by path. *)
Abbreviation files := (gmap String.string String.string).

(** [downloadFile(url, filePath)].  [fs.createWriteStream] creates the file
    empty; the callback pipes the response into it whatever the response is,
    and resolves on 'finish'.  The write stream's listeners are attached in
    the callback only: when the destination cannot be opened, its 'error'
    comes before any response and nobody listens, so no file is made and
    the promise is left unsettled.  A response that is cut short never ends
    the pipe: no 'finish', and its own 'error' has no listener either. *)
Definition downloadFile (net : String.string -> network) (dsk : disk)
    (url filePath : String.string) (fs : files) : promise * files :=
  match dsk with
  | CannotOpen => (Pending, fs)
  | _ =>
      let fs := <[filePath := EmptyString]> fs in
      match net url with
      | Unreachable => (Rejected NetworkError, fs)
      | Answered r =>
          match dsk with
          | Finish => (Resolved, <[filePath := body r]> fs)
          | _ => (Rejected IOError, fs)
          end
      | CutShort r =>
          match dsk with
          | Finish => (Pending, <[filePath := body r]> fs)
          | _ => (Rejected IOError, fs)
          end
      end
  end.

End Fetcher.

(** ** The orchestrator, [processDataDump] *)

Module Pipeline.

(** The calls of [processDataDump], in program order. *)
Inductive stage :=
  | Download | Extract | CreateDatabase | SetupTables
  | LoadOrganizations | LoadCustomers | Destroy.

#[global] Instance stage_eq_dec : EqDecision stage.
Proof. solve_decision. Defined.

(** How each awaited call settles in a given run: resolved, rejected, or
    never ([Pending]). *)
Record world := World {
  w_download : promise;
  w_extract : promise;
  w_setup : promise;
  w_organizations : promise;
  w_customers : promise;
  w_destroy : promise
}.

(** What a run did: the calls it made, whether the connection was created
    and whether it was destroyed, and how the promise of [processDataDump]
    settled. *)
Record trace := Trace {
  ran : list stage;
  opened : bool;
  closed : bool;
  outcome : promise
}.

Definition start : trace := Trace [] false false Pending.

Definition record (st : stage) (t : trace) : trace :=
  Trace (ran t ++ [st]) (opened t) (closed t) (outcome t).

Definition finish (p : promise) (t : trace) : trace :=
  Trace (ran t) (opened t) (closed t) p.

(** [await call; rest]: the call is made; [rest] runs if its promise
    resolves.  A rejection leaves the [async] function at once, rejecting its
    promise, and a promise that never settles leaves it suspended: there is
    no [try] around any of the calls. *)
Definition await (st : stage) (p : promise) (rest : trace -> trace)
    (t : trace) : trace :=
  let t := record st t in
  match p with
  | Resolved => rest t
  | Rejected e => finish (Rejected e) t
  | Pending => t
  end.

(** [const db = createDatabase()]. *)
Definition createDatabase (rest : trace -> trace) (t : trace) : trace :=
  let t := record CreateDatabase t in
  rest (Trace (ran t) true (closed t) (outcome t)).

(** What follows [await db.destroy()]: the connection is released and the
    function returns. *)
Definition released (t : trace) : trace :=
  Trace (ran t) (opened t) true Resolved.

Definition processDataDump (w : world) : trace :=
  await Download (w_download w)
    (await Extract (w_extract w)
      (createDatabase
        (await SetupTables (w_setup w)
          (await LoadOrganizations (w_organizations w)
            (await LoadCustomers (w_customers w)
              (await Destroy (w_destroy w) released))))))
    start.

(** The batch size [processDataDump] passes to both loads. *)
Definition batchSize : nat := 100.

(** The calls of a run in which every call resolves. *)
Definition program : list stage :=
  [Download; Extract; CreateDatabase; SetupTables;
   LoadOrganizations; LoadCustomers; Destroy].

(** How the call of a stage settles in a world; [createDatabase] is not
    awaited. *)
Definition settles (w : world) (st : stage) : promise :=
  match st with
  | Download => w_download w
  | Extract => w_extract w
  | CreateDatabase => Resolved
  | SetupTables => w_setup w
  | LoadOrganizations => w_organizations w
  | LoadCustomers => w_customers w
  | Destroy => w_destroy w
  end.

(** The calls of a list that are made when a failure aborts what remains:
    each in turn, up to and including the first whose promise does not
    resolve. *)
Fixpoint calls_until_failure (w : world) (l : list stage) : list stage :=
  match l with
  | [] => []
  | st :: rest =>
      st :: match settles w st with
            | Resolved => calls_until_failure w rest
            | _ => []
            end
  end.

(** How such a run settles: as the first call that does not resolve does,
    and resolved when all calls resolve. *)
Fixpoint first_failure (w : world) (l : list stage) : promise :=
  match l with
  | [] => Resolved
  | st :: rest =>
      match settles w st with
      | Resolved => first_failure w rest
      | p => p
      end
  end.

End Pipeline.

(** ** Sample data *)

Module Sample.
Import Loader.

Definition header : list string := ["id"; "name"]%string.

Definition alice : row := [("id", "1"); ("name", "Alice")]%string.
Definition bob : row := [("id", "2"); ("name", "Bob")]%string.
Definition carol : row := [("id", "3"); ("name", "Carol")]%string.
Definition dave : row := [("id", "4"); ("name", "Dave")]%string.
Definition erin : row := [("id", "5"); ("name", "Erin")]%string.

(** [id,name\n1,Alice\n2,Bob\n3,Carol], the three-row file of the spec. *)
Definition three_lines : list (list string) :=
  [header; ["1"; "Alice"]; ["2"; "Bob"]; ["3"; "Carol"]]%string.

(** Four and five data rows. *)
Definition four_lines : list (list string) :=
  three_lines ++ [["4"; "Dave"]]%string.
Definition five_lines : list (list string) :=
  four_lines ++ [["5"; "Erin"]]%string.

(** A file whose fourth data row has one field too many. *)
Definition broken_lines : list (list string) :=
  three_lines ++ [["4"; "Dave"; "x"]; ["5"; "Erin"]]%string.

(** The world in which the schema cannot be set up. *)
Definition setup_fails : Pipeline.world :=
  Pipeline.World Resolved Resolved (Rejected StorageError) Resolved Resolved Resolved.

End Sample.

(** ** Invariants of a load *)

Module Invariants.
Import Loader.

(** While records remain to be delivered, at most one bulk insert is
    outstanding, and none when the stream is flowing. *)
Definition reads_gated (s : state) : Prop :=
  destroyed s = false -> source s <> [] ->
  length (inflight s) <= 1 /\ (flowing s = true -> inflight s = []).

(** With a capacity of at least one, the accumulator never holds more than
    [N] records, and fewer while the stream is flowing. *)
Definition batch_bounded (N : nat) (s : state) : Prop :=
  length (batch s) <= N /\
  (destroyed s = false -> flowing s = true -> source s <> [] ->
   length (batch s) < N).

(** The load of a source that parses to the records [good] and then fails
    with [e].  The table holds [j] whole batches of [good].  Before the
    failure is delivered the records read so far are the stored ones and the
    accumulator, whose insert is outstanding exactly when it is full and the
    stream paused; afterwards the promise is rejected with [e] and at most
    one insert, of the next whole batch, is still outstanding. *)
Definition parse_failure_inv (N : nat) (good : list row) (e : error)
    (s : state) : Prop :=
  ended s = false /\
  exists j, concat (committed s) = take (j * N) good /\ j * N <= length good /\
  if destroyed s then
    result s = Rejected e /\ source s = [] /\
    (inflight s = [] \/
     exists i, inflight s = [i] /\
       concat (committed s) ++ ins_rows i = take (S j * N) good /\
       S j * N <= length good)
  else
    result s = Pending /\
    exists todo, source s = (Row <$> todo) ++ [Bad e] /\
      good = concat (committed s) ++ batch s ++ todo /\
      length (batch s) <= N /\
      (flowing s = true -> length (batch s) < N /\ inflight s = []) /\
      (inflight s = [] \/
       inflight s = [Insert (batch s) OnData] /\ length (batch s) = N).

(** A load of the records [rows] in which no bulk insert has failed, before
    'end': what has been read is what is stored followed by the accumulator,
    every stored batch is full, and either the stream flows with the
    accumulator below the capacity and nothing outstanding, or it is paused
    on the insert of a full accumulator. *)
Definition loading (N : nat) (rows : list row) (s : state) : Prop :=
  ended s = false /\ destroyed s = false /\ result s = Pending /\
  exists todo,
    source s = Row <$> todo /\
    rows = concat (committed s) ++ batch s ++ todo /\
    length (concat (committed s)) = length (committed s) * N /\
    ((flowing s = true /\ inflight s = [] /\ length (batch s) < N) \/
     (flowing s = false /\ inflight s = [Insert (batch s) OnData] /\
      length (batch s) = N)).

(** The same load after 'end'.  Either the 'end' listener awaits its insert,
    of a partial accumulator, or of a full one whose insert from the 'data'
    listener is outstanding as well; or one of those two inserts of the last
    full batch [b] has completed and the other is outstanding; or the load
    has resolved with nothing outstanding, the table holding the records
    once, or once and the last full batch again. *)
Definition draining (N : nat) (rows : list row) (s : state) : Prop :=
  ended s = true /\ destroyed s = false /\ source s = [] /\
  ((result s = Pending /\
    rows = concat (committed s) ++ batch s /\
    length (concat (committed s)) = length (committed s) * N /\
    ((inflight s = [Insert (batch s) OnEnd] /\ 0 < length (batch s) < N) \/
     (inflight s = [Insert (batch s) OnData; Insert (batch s) OnEnd] /\
      length (batch s) = N))) \/
   (batch s = [] /\ concat (committed s) = rows /\
    length (committed s) * N = length rows /\
    exists b, length b = N /\ b `suffix_of` rows /\
      ((result s = Pending /\ inflight s = [Insert b OnEnd]) \/
       (result s = Resolved /\ inflight s = [Insert b OnData]))) \/
   (result s = Resolved /\ batch s = [] /\ inflight s = [] /\
    concat (committed s) = rows /\
    length (committed s) = (length rows + N - 1) / N) \/
   (result s = Resolved /\ batch s = [] /\ inflight s = [] /\
    length (committed s) = (length rows + N - 1) / N + 1 /\
    length (committed s) * N = length rows + N /\
    exists b, length b = N /\ b `suffix_of` rows /\
      concat (committed s) = rows ++ b)).

Definition unfailed (N : nat) (rows : list row) (s : state) : Prop :=
  loading N rows s \/ draining N rows s.

(** What holds of every load, insert failures included, of a source that
    parses to the records [rows]: the stream is never destroyed; once 'end'
    is emitted the source is exhausted, and the 'end' listener awaits an
    insert only then; the records read so far are in the table or in the
    accumulator; an outstanding insert holds the accumulator's records unless
    the accumulator has been cleared; only records of the source are stored,
    accumulated or being inserted; and a resolved load has an empty
    accumulator. *)
Definition accounted (rows : list row) (s : state) : Prop :=
  destroyed s = false /\
  (ended s = true -> source s = []) /\
  (forall i, i ∈ inflight s -> ins_from i = OnEnd -> ended s = true) /\
  (exists done todo,
     rows = done ++ todo /\ source s = Row <$> todo /\
     forall r, r ∈ done -> r ∈ table_rows s \/ r ∈ batch s) /\
  (forall i, i ∈ inflight s -> batch s = [] \/ ins_rows i = batch s) /\
  (forall r, r ∈ table_rows s \/ r ∈ batch s -> r ∈ rows) /\
  (forall i r, i ∈ inflight s -> r ∈ ins_rows i -> r ∈ rows) /\
  (result s = Resolved -> batch s = [] /\ source s = []).

(** Every bulk insert, outstanding or completed, is of at least one record
    and of at most [N]. *)
Definition inserts_sized (N : nat) (s : state) : Prop :=
  (forall i, i ∈ inflight s -> 1 <= length (ins_rows i) <= N) /\
  (forall b, b ∈ committed s -> 1 <= length b <= N).

(** At most one bulk insert is outstanding until 'end' is emitted, at most
    two afterwards. *)
Definition inserts_few (s : state) : Prop :=
  (ended s = true -> source s = []) /\
  (ended s = false -> length (inflight s) <= 1) /\
  length (inflight s) <= 2.

(** What a load has left to do, in events: the outstanding inserts settle,
    and while the stream is alive every undelivered item gives one event and
    at most one insert, and 'end' gives one event and at most one insert. *)
Definition pending_work (s : state) : nat :=
  length (inflight s) +
  (if destroyed s then 0
   else 2 * length (source s) + (if ended s then 0 else 2)).

End Invariants.

(** ** Facts about runs *)

Module LoaderFacts.
Import Loader Invariants.

Lemma run_app N s tr1 tr2 :
  run N s (tr1 ++ tr2) =
  match run N s tr1 with Some s' => run N s' tr2 | None => None end.
Proof.
  revert s. induction tr1 as [|ev tr1 IH]; intros s; simpl; [done|].
  destruct (step N s ev); [apply IH | done].
Qed.

Lemma first_bad_rows (l : list row) : first_bad (Row <$> l) = None.
Proof. induction l as [|r l IH]; simpl; [done|exact IH]. Qed.

Lemma first_bad_app (l : list row) e rest :
  first_bad ((Row <$> l) ++ Bad e :: rest) = Some e.
Proof. induction l as [|r l IH]; simpl; [done|exact IH]. Qed.

(** A property that holds initially and is kept by every step holds after
    every run. *)
Lemma run_invariant N (P : state -> Prop) :
  (forall s ev s', P s -> step N s ev = Some s' -> P s') ->
  forall tr s s', P s -> run N s tr = Some s' -> P s'.
Proof.
  intros Hstep tr. induction tr as [|ev tr IH]; intros s s' Hs Hrun; simpl in Hrun.
  - by injection Hrun as <-.
  - destruct (step N s ev) as [s1|] eqn:E; [|done].
    eapply IH; [|exact Hrun]. eapply Hstep; eauto.
Qed.

(** Case analysis on one step, with the state's fields in the open. *)
Ltac step_cases H :=
  unfold step in H; simpl in H;
  repeat match type of H with
    | match ?x with _ => _ end = Some _ =>
        let E := fresh "E" in destruct x eqn:E; simpl in H; try discriminate H
    end;
  injection H as <-;
  unfold on_data, on_end, on_error, insertBatch_call, insertBatch_return,
    resolve, reject, settle, pause, resume;
  simpl;
  repeat match goal with
    | |- context [if ?x then _ else _] =>
        let E := fresh "E" in destruct x eqn:E; simpl
    end.

Lemma reads_gated_init src : reads_gated (init src).
Proof. intros _ _. simpl. split; [lia | done]. Qed.

Lemma reads_gated_step N s ev s' :
  reads_gated s -> step N s ev = Some s' -> reads_gated s'.
Proof.
  intros Inv H. unfold reads_gated in *. destruct s as [src fl en de b inf com res unh].
  destruct ev as [| | |k o]; simpl in *.
  - step_cases H; intros Hd Hs; apply andb_prop in E1 as [-> _];
      destruct (Inv Hd ltac:(done)) as [_ Hin]; rewrite (Hin eq_refl); simpl;
      split; (lia || done).
  - step_cases H; intros Hd; discriminate Hd.
  - step_cases H; intros _ Hs; by destruct Hs.
  - destruct (inf !! k) as [i|] eqn:Ek; [|done].
    assert (forall (l : list insert), length l <= 1 -> l !! k = Some i -> delete k l = []) as Hdel.
    { intros [|x [|y l]] Hl Hk; simpl in *; try lia; try done.
      destruct k; simpl in *; done. }
    destruct o as [|e]; injection H as <-; destruct (ins_from i); simpl;
      intros Hd Hs; destruct (Inv Hd Hs) as [Hlen _];
      rewrite (Hdel inf Hlen Ek); simpl; split; (lia || done).
Qed.

Lemma batch_bounded_init N src : 1 <= N -> batch_bounded N (init src).
Proof. intros HN. split; simpl; lia. Qed.

Lemma batch_bounded_step N s ev s' :
  1 <= N -> batch_bounded N s -> step N s ev = Some s' -> batch_bounded N s'.
Proof.
  intros HN [Hle Hlt] H. unfold batch_bounded in *.
  destruct s as [src fl en de b inf com res unh].
  destruct ev as [| | |k o]; simpl in *.
  - step_cases H; apply andb_prop in E1 as [-> Hnd];
      apply negb_true_iff in Hnd; subst de;
      rewrite length_app in *; simpl in *;
      specialize (Hlt eq_refl eq_refl ltac:(done));
      try (apply Nat.leb_le in E2); try (apply Nat.leb_gt in E2);
      (split; [lia | try done; intros; lia]).
  - step_cases H; split; [lia | done].
  - step_cases H; (split; [lia | intros _ _ Hs; by destruct Hs]).
  - destruct (inf !! k) as [i|] eqn:Ek; [|done].
    destruct o as [|e]; injection H as <-; destruct (ins_from i); simpl;
      (split; [lia | intros; auto; lia]).
Qed.

Ltac to_arith :=
  repeat match goal with
    | H : (_ <=? _) = true |- _ => apply Nat.leb_le in H
    | H : (_ <=? _) = false |- _ => apply Nat.leb_gt in H
    | H : (_ <? _) = true |- _ => apply Nat.ltb_lt in H
    | H : (_ <? _) = false |- _ => apply Nat.ltb_ge in H
    | H : (_ && _) = true |- _ => apply andb_prop in H as [? ?]
    end.

Lemma parse_rows_malformed header body :
  Exists (fun l => length l <> length header) body ->
  parse_rows header body = (Row <$> good_records header body) ++ [Bad ParseError].
Proof.
  induction body as [|l ls IH]; intros H; [by apply Exists_nil in H|].
  simpl. destruct (decide (length l = length header)) as [Hl|Hl]; [|done].
  apply Exists_cons in H as [H|H]; [done|]. simpl. by rewrite IH.
Qed.


Lemma parse_failure_inv_init N good e :
  1 <= N -> parse_failure_inv N good e (init ((Row <$> good) ++ [Bad e])).
Proof.
  intros HN. split; [done|]. exists 0. simpl. split; [by rewrite take_0|]. split; [lia|].
  split; [done|]. exists good. repeat split; auto; simpl; lia.
Qed.

Lemma take_mul_succ {A} (j N : nat) (good pre b post : list A) :
  pre = take (j * N) good -> j * N <= length good ->
  good = pre ++ b ++ post -> length b = N ->
  pre ++ b = take (S j * N) good /\ S j * N <= length good.
Proof.
  intros Hpre Hj Hgood Hb.
  assert (length pre = j * N) as Hlen by (rewrite Hpre, length_take; lia).
  split.
  - rewrite Hgood at 1. rewrite app_assoc.
    rewrite take_app_length'; [done|]. rewrite length_app. simpl. lia.
  - rewrite Hgood, !length_app. simpl. lia.
Qed.

Lemma singleton_lookup {A} (l : list A) k i x :
  l = [x] -> l !! k = Some i -> k = 0 /\ i = x /\ delete k l = [].
Proof. intros -> H. destruct k; simpl in *; [by injection H as <-|done]. Qed.

Lemma parse_failure_inv_step N good e s ev s' :
  1 <= N -> parse_failure_inv N good e s -> step N s ev = Some s' ->
  parse_failure_inv N good e s'.
Proof.
  intros HN (Hen & j & Hcom & Hj & Inv) H. unfold parse_failure_inv.
  destruct s as [src fl en de b inf com res unh]. simpl in *. subst en.
  destruct de.
  - (* the stream is destroyed: only outstanding inserts can settle *)
    destruct Inv as (-> & -> & Hinf).
    destruct ev as [| | |k o]; simpl in H; try done.
    destruct (inf !! k) as [i|] eqn:Ek; [|done].
    destruct Hinf as [->|(i0 & Hi0 & Hrows & Hlen)]; [done|].
    destruct (singleton_lookup _ _ _ _ Hi0 Ek) as (-> & -> & Hdel).
    rewrite Hdel in H.
    destruct o as [|e']; injection H as <-.
    + destruct (ins_from i0); simpl; (split; [done|]); exists (S j);
        rewrite concat_app; simpl; rewrite app_nil_r;
        repeat (split; [done|]); by left.
    + simpl. split; [done|]. exists j. repeat (split; [done|]). by left.
  - destruct Inv as (-> & todo & -> & Hgood & Hb & Hfl & Hinf).
    destruct ev as [| | |k o].
    + (* 'data' *)
      destruct todo as [|r todo]; [done|].
      step_cases H; to_arith; subst fl; destruct (Hfl eq_refl) as [Hlt ->];
        rewrite ?length_app in *; simpl in *; [lia|..];
        (split; [done|]); exists j; do 3 (split; [done|]);
        exists todo; (split; [done|]); (split; [by rewrite <- app_assoc|]);
        (split; [lia|]).
      * split; [done|]. right. split; [done|]. lia.
      * split; [intros _; split; [lia|done]|]. by left.
    + (* 'error': the records not yet delivered are dropped *)
      simpl in H. rewrite first_bad_app in H. injection H as <-. simpl.
      split; [done|]. exists j. split; [done|]. split; [done|]. split; [done|].
      split; [done|]. destruct Hinf as [->|[-> Hlen]]; [by left|right].
      eexists. split; [done|]. simpl.
      eapply (take_mul_succ j N good (concat com) b todo); eauto.
    + (* 'end': the source is not exhausted *)
      simpl in H. by destruct todo.
    + (* an insert settles *)
      simpl in H. destruct (inf !! k) as [i|] eqn:Ek; [|done].
      destruct Hinf as [->|[Hi0 Hlen]]; [done|].
      destruct (singleton_lookup _ _ _ _ Hi0 Ek) as (-> & -> & Hdel).
      rewrite Hdel in H.
      assert (fl = false) as ->.
      { destruct fl; [|done]. destruct (Hfl eq_refl) as [_ Hnil]. by rewrite Hnil in Hi0. }
      destruct o as [|e']; injection H as <-; simpl.
      * split; [done|]. exists (S j). rewrite concat_app. simpl. rewrite app_nil_r.
        destruct (take_mul_succ j N good (concat com) b todo) as [Ht Hl]; auto.
        split; [done|]. split; [done|]. split; [done|].
        exists todo. split; [done|]. split; [by rewrite <- app_assoc|].
        split; [lia|]. split; [intros _; split; [lia|done]|]. by left.
      * split; [done|]. exists j. split; [done|]. split; [done|]. split; [done|].
        exists todo. split; [done|]. split; [done|]. split; [done|].
        split; [done|]. by left.
Qed.


Lemma committed_grows N s ev s' :
  step N s ev = Some s' -> committed s `prefix_of` committed s'.
Proof.
  intros H. destruct s as [src fl en de b inf com res unh].
  destruct ev as [| | |k o]; [step_cases H; done..|].
  simpl in H. destruct (inf !! k) as [i|]; [|done].
  destruct o; injection H as <-; [|done].
  destruct (ins_from i); simpl; by apply prefix_app_r.
Qed.

Lemma batches_concat N acc rows : concat (batches N acc rows) = acc ++ rows.
Proof.
  revert acc. induction rows as [|r rows IH]; intros acc; simpl.
  - destruct acc; simpl; by rewrite ?app_nil_r.
  - destruct (N <=? S (length acc)); simpl; rewrite IH; by rewrite <- ?app_assoc.
Qed.

Lemma batches_length N acc rows :
  1 <= N -> length acc < N ->
  length (batches N acc rows) = (length acc + length rows + N - 1) / N.
Proof.
  intros HN. revert acc. induction rows as [|r rows IH]; intros acc Hacc; simpl.
  - destruct acc as [|a acc]; simpl in *.
    + symmetry. apply Nat.div_small. lia.
    + apply (Nat.div_unique _ _ 1 (length acc)); lia.
  - destruct (N <=? S (length acc)) eqn:E; to_arith; simpl.
    + rewrite IH by (simpl; lia). simpl.
      replace (length acc + S (length rows) + N - 1)
        with (1 * N + (length rows + N - 1)) by lia.
      rewrite Nat.div_add_l by lia. lia.
    + rewrite IH by (rewrite length_app; simpl; lia).
      rewrite length_app. simpl. f_equal. lia.
Qed.

Lemma batches_last N acc rows :
  1 <= N -> length acc < N -> 0 < length acc + length rows ->
  exists b, last (batches N acc rows) = Some b /\
    length b = if (length acc + length rows) mod N =? 0 then N
               else (length acc + length rows) mod N.
Proof.
  intros HN. revert acc. induction rows as [|r rows IH]; intros acc Hacc HT; simpl.
  - destruct acc as [|a acc]; simpl in *; [lia|].
    eexists. split; [done|]. simpl. rewrite Nat.add_0_r.
    rewrite (Nat.mod_small (S (length acc)) N) by lia. done.
  - destruct (N <=? S (length acc)) eqn:E; to_arith.
    + assert (length acc + S (length rows) = 1 * N + length rows) as -> by lia.
      rewrite Nat.add_comm, Nat.Div0.mod_add.
      destruct rows as [|r' rows].
      * simpl. eexists. split; [done|]. rewrite Nat.Div0.mod_0_l. simpl.
        rewrite length_app. simpl. lia.
      * destruct (IH [] ltac:(simpl; lia) ltac:(simpl; lia)) as (b & Hb & Hl).
        exists b. split; [|exact Hl].
        rewrite last_cons. by rewrite Hb.
    + destruct (IH (acc ++ [r])) as (b & Hb & Hl);
        [rewrite length_app; simpl; lia..|].
      exists b. split; [done|]. rewrite Hl, length_app. simpl.
      by replace (length acc + 1 + length rows) with (length acc + S (length rows)) by lia.
Qed.


Lemma serial_run N rows :
  1 <= N ->
  forall s,
    flowing s = true -> destroyed s = false -> ended s = false ->
    inflight s = [] -> source s = Row <$> rows -> length (batch s) < N ->
    result s = Pending ->
    exists s',
      run N s (serial N (length (batch s)) (Row <$> rows)) = Some s' /\
      result s' = Resolved /\ inflight s' = [] /\
      unhandled s' = unhandled s /\
      committed s' = committed s ++ batches N (batch s) rows.
Proof.
  intros HN. induction rows as [|r rows IH];
    intros [src fl en de b inf com res unh]; simpl;
    intros -> -> -> -> -> Hb ->.
  - unfold on_end, insertBatch_call. simpl.
    destruct (0 <? length b) eqn:E0; simpl.
    + destruct (N <? 1) eqn:E1; to_arith; [lia|]. simpl.
      eexists. split; [reflexivity|]. done.
    + eexists. split; [reflexivity|]. simpl. by rewrite app_nil_r.
  - destruct (N <=? S (length b)) eqn:E; simpl;
      unfold on_data, insertBatch_call; simpl;
      rewrite length_app; simpl; rewrite Nat.add_1_r, E; simpl.
    + destruct (N <? 1) eqn:E1; to_arith; [lia|]. simpl.
      destruct (IH (State (Row <$> rows) true false false [] []
                      (com ++ [b ++ [r]]) Pending unh)
                  eq_refl eq_refl eq_refl eq_refl eq_refl
                  ltac:(simpl; lia) eq_refl)
        as (s' & Hrun & Hres & Hin & Hun & Hcom).
      simpl in *. exists s'. split; [exact Hrun|]. rewrite Hcom, <- app_assoc. done.
    + to_arith.
      destruct (IH (State (Row <$> rows) true false false (b ++ [r]) []
                      com Pending unh)
                  eq_refl eq_refl eq_refl eq_refl eq_refl
                  ltac:(simpl; rewrite length_app; simpl; lia) eq_refl)
        as (s' & Hrun & Hres & Hin & Hun & Hcom).
      simpl in *. rewrite length_app in Hrun. simpl in Hrun.
      rewrite Nat.add_1_r in Hrun. exists s'. done.
Qed.

Lemma serial_reaches_error N good e rest :
  1 <= N ->
  forall s,
    flowing s = true -> destroyed s = false -> inflight s = [] ->
    source s = (Row <$> good) ++ Bad e :: rest -> length (batch s) < N ->
    exists s',
      run N s (serial N (length (batch s)) (source s)) = Some s' /\
      destroyed s' = true.
Proof.
  intros HN. induction good as [|r good IH];
    intros [src fl en de b inf com res unh]; simpl;
    intros -> -> -> -> Hb.
  - eexists. split; [reflexivity|done].
  - simpl. destruct (N <=? S (length b)) eqn:E; simpl;
      unfold on_data, insertBatch_call; simpl;
      rewrite length_app; simpl; rewrite Nat.add_1_r, E; simpl.
    + destruct (N <? 1) eqn:E1; to_arith; [lia|]. simpl.
      destruct (IH (State ((Row <$> good) ++ Bad e :: rest) true en false [] []
                      (com ++ [b ++ [r]]) res unh)
                  eq_refl eq_refl eq_refl eq_refl ltac:(simpl; lia))
        as (s' & Hrun & Hd).
      simpl in *. by exists s'.
    + to_arith.
      destruct (IH (State ((Row <$> good) ++ Bad e :: rest) true en false
                      (b ++ [r]) [] com res unh)
                  eq_refl eq_refl eq_refl eq_refl
                  ltac:(simpl; rewrite length_app; simpl; lia))
        as (s' & Hrun & Hd).
      simpl in *. rewrite length_app in Hrun. simpl in Hrun.
      rewrite Nat.add_1_r in Hrun. by exists s'.
Qed.

(** A bulk insert that fails changes neither the promise of the load nor the
    table: its rejection stays in the listener that awaited it. *)
Lemma failed_insert_unreported N s k e s' :
  step N s (EvSettle k (Failed e)) = Some s' ->
  result s' = result s /\ committed s' = committed s /\
  flowing s' = flowing s /\ unhandled s' = e :: unhandled s.
Proof.
  simpl. destruct (inflight s !! k); [|done]. by intros [= <-].
Qed.

(** The promise of a load is rejected by the 'error' listener only: a source
    that parses without failure never has its load rejected, whatever the
    bulk inserts do. *)
Lemma rejected_only_by_parser N rows tr s e :
  run N (init (Row <$> rows)) tr = Some s -> result s <> Rejected e.
Proof.
  intros Hrun.
  enough ((exists todo, source s = Row <$> todo) /\ result s <> Rejected e)
    as [_ H] by exact H.
  eapply (run_invariant N
            (fun s => (exists todo, source s = Row <$> todo) /\
                      result s <> Rejected e) _ tr (init (Row <$> rows)));
    [split; [exists rows; reflexivity|simpl; discriminate]|exact Hrun].
  Unshelve. clear. intros [src fl en de b inf com res unh] ev s' [[todo Hsrc] Hres] H.
  simpl in *. subst src.
  destruct ev as [| | |k o].
  - destruct todo as [|r todo]; [done|]. step_cases H; (split; [by exists todo|done]).
  - simpl in H. by rewrite first_bad_rows in H.
  - destruct todo as [|r todo]; [|done]. step_cases H;
      (split; [by exists []|]); try done. by destruct res.
  - simpl in H. destruct (inf !! k) as [i|]; [|done].
    destruct o; injection H as <-; [destruct (ins_from i)|]; simpl;
      (split; [by exists todo|]); try done. by destruct res.
Qed.

Lemma first_bad_length src e : first_bad src = Some e -> 0 < length src.
Proof. destruct src; simpl; [done|lia]. Qed.

(** Every event uses up some of the work that is left. *)
Lemma step_consumes N s ev s' :
  step N s ev = Some s' -> S (pending_work s') <= pending_work s.
Proof.
  intros H. unfold pending_work.
  destruct s as [src fl en de b inf com res unh].
  destruct ev as [| | |k o].
  - step_cases H; to_arith; destruct de; try done; destruct en;
      rewrite ?length_app; simpl; lia.
  - simpl in H. destruct (first_bad src) as [e|] eqn:E; [|done].
    apply first_bad_length in E.
    destruct de; [done|]. injection H as <-. simpl. destruct en; lia.
  - step_cases H; destruct en, de; try done; rewrite ?length_app; simpl; lia.
  - simpl in H. destruct (inf !! k) as [i|] eqn:Ek; [|done].
    assert (length (delete k inf) = length inf - 1) as Hd
      by (by apply length_delete).
    assert (0 < length inf) as Hpos
      by (apply lookup_lt_Some in Ek; lia).
    destruct o as [|e]; injection H as <-; [destruct (ins_from i)|];
      simpl; rewrite Hd; lia.
Qed.

(** So a run is no longer than the work its first state has left. *)
Lemma run_bounded N s tr s' :
  run N s tr = Some s' -> length tr + pending_work s' <= pending_work s.
Proof.
  revert s. induction tr as [|ev tr IH]; intros s Hrun; simpl in Hrun.
  - injection Hrun as <-. simpl. lia.
  - destruct (step N s ev) as [s1|] eqn:E; [|done].
    apply step_consumes in E. apply IH in Hrun. simpl. lia.
Qed.

End LoaderFacts.


(** ** The claims about the loader *)

Module LoaderClaims.
Import Loader Invariants LoaderFacts.

(** C1: during a load no record is read from the source while a bulk insert
    is outstanding: whenever the stream delivers a record, every
    [db.batchInsert] call made so far has settled, so the insert of a filled
    batch completes before any record of the next batch is read. *)
Theorem no_read_while_insert_outstanding N src tr s s' :
  processCSV N src tr = Some s ->
  step N s EvData = Some s' ->
  inflight s = [].
Proof.
  intros Hrun Hread.
  assert (reads_gated s) as Inv.
  { eapply (run_invariant N reads_gated); [apply reads_gated_step| |exact Hrun].
    apply reads_gated_init. }
  unfold step in Hread.
  destruct (source s) as [|[r|e] rest] eqn:Es; try discriminate Hread.
  destruct (flowing s) eqn:Ef; [|discriminate Hread].
  destruct (destroyed s) eqn:Ed; [discriminate Hread|].
  apply Inv; [done | by rewrite Es | done].
Qed.

Lemma no_read_while_insert_outstanding_witness :
  exists s s',
    processCSV 2 (csv_parse Sample.three_lines)
      [EvData; EvData; EvSettle 0 Done] = Some s /\
    step 2 s EvData = Some s' /\
    inflight s = [] /\ batch s' = [Sample.carol].
Proof.
  eexists _, _. split; [vm_compute; reflexivity|].
  split; [vm_compute; reflexivity|]. split; [|reflexivity].
  eapply (no_read_while_insert_outstanding 2 (csv_parse Sample.three_lines)
            [EvData; EvData; EvSettle 0 Done]); vm_compute; reflexivity.
Defined.

(** C3: with a batch capacity [N] of at least one, the accumulator never
    holds more than [N] records, in any state a load can reach. *)
Theorem accumulator_bounded N src tr s :
  1 <= N ->
  processCSV N src tr = Some s ->
  length (batch s) <= N.
Proof.
  intros HN Hrun.
  enough (batch_bounded N s) as [H _] by exact H.
  eapply (run_invariant N (batch_bounded N)); [|apply batch_bounded_init|exact Hrun];
    [intros; eapply batch_bounded_step; eauto | done].
Qed.

Lemma accumulator_bounded_witness :
  exists s,
    processCSV 2 (csv_parse Sample.three_lines) [EvData; EvData] = Some s /\
    batch s = [Sample.alice; Sample.bob] /\
    length (batch s) <= 2.
Proof.
  eexists. split; [vm_compute; reflexivity|]. split; [reflexivity|].
  apply (accumulator_bounded 2 (csv_parse Sample.three_lines) [EvData; EvData]);
    [lia | vm_compute; reflexivity].
Defined.

(** C9: a source with a header row and no data rows: the only thing the
    runtime can deliver is 'end', the load then resolves, and no bulk insert
    is made in any run. *)
Theorem header_only_source N header :
  (exists s,
     processCSV N (csv_parse [header]) [EvEnd] = Some s /\
     result s = Resolved /\ insert_count s = 0 /\ inflight s = []) /\
  (forall tr s,
     processCSV N (csv_parse [header]) tr = Some s ->
     insert_count s = 0 /\ inflight s = [] /\ unhandled s = [] /\
     (tr = [] \/ tr = [EvEnd] /\ result s = Resolved)).
Proof.
  split; [eexists; split; [reflexivity | done]|].
  intros tr s. unfold processCSV. simpl.
  destruct tr as [|ev tr]; simpl.
  - intros [= <-]. repeat split; auto.
  - destruct ev as [| | |k o]; simpl; try done.
    destruct tr as [|ev tr]; simpl.
    + intros [= <-]. repeat split; auto.
    + destruct ev as [| | |k o]; simpl; done.
Qed.

(** C2, at a source of four rows with capacity 2: the runtime delivers 'end'
    while the insert of the second full batch is outstanding, the 'end'
    listener finds the accumulator still full and inserts it again: three
    bulk inserts, not two. *)
Theorem end_during_insert_flushes_again :
  exists s,
    processCSV 2 (csv_parse Sample.four_lines)
      [EvData; EvData; EvSettle 0 Done; EvData; EvData; EvEnd;
       EvSettle 0 Done; EvSettle 0 Done] = Some s /\
    result s = Resolved /\
    insert_count s = 3 /\
    insert_count s <> (4 + 2 - 1) / 2 /\
    committed s =
      [[Sample.alice; Sample.bob]; [Sample.carol; Sample.dave];
       [Sample.carol; Sample.dave]].
Proof.
  eexists. split; [vm_compute; reflexivity|].
  repeat split. vm_compute. discriminate.
Qed.

(** C4, in the same run: the rows of the last full batch are stored twice,
    so the table has six rows for four source rows. *)
Theorem end_during_insert_duplicates_rows :
  exists s,
    processCSV 2 (csv_parse Sample.four_lines)
      [EvData; EvData; EvSettle 0 Done; EvData; EvData; EvEnd;
       EvSettle 0 Done; EvSettle 0 Done] = Some s /\
    table_rows s =
      [Sample.alice; Sample.bob; Sample.carol; Sample.dave;
       Sample.carol; Sample.dave] /\
    ~ NoDup (table_rows s).
Proof.
  eexists. split; [vm_compute; reflexivity|]. split; [reflexivity|].
  intros H. apply (bool_decide_pack _) in H. vm_compute in H. done.
Qed.

(** C5, at a source of five rows with capacity 2 whose second bulk insert
    fails: the rejection is lost in the 'data' listener.  The first batch
    stays stored and nothing more is read, but the promise of the load stays
    pending and no event can follow: the load neither fails nor finishes. *)
Theorem insert_failure_leaves_load_pending :
  exists s,
    processCSV 2 (csv_parse Sample.five_lines)
      [EvData; EvData; EvSettle 0 Done; EvData; EvData;
       EvSettle 0 (Failed StorageError)] = Some s /\
    result s = Pending /\
    unhandled s = [StorageError] /\
    committed s = [[Sample.alice; Sample.bob]] /\
    source s = [Row Sample.erin] /\
    forall ev, step 2 s ev = None.
Proof.
  eexists. split; [vm_compute; reflexivity|].
  repeat split. intros [| | |[|k] o]; reflexivity.
Qed.

(** C6: a source with a malformed row, of capacity [N] at least one, under
    every schedule: the parser's failure may arrive while earlier records
    are still held back, and those are then never read.  The load never
    resolves, and it is rejected, with [ParseError], exactly when 'error'
    has been delivered.  That cannot be put off for ever: a run is of
    bounded length, and as long as no bulk insert has failed a load that is
    not yet rejected is not over, its 'error' is deliverable and rejects it.
    The table holds whole batches of the records before the malformed row
    and nothing else, so the records of the batch in progress are never
    stored; and what the table holds it keeps in every later step. *)
Theorem malformed_row_fails_load N header body tr s :
  1 <= N ->
  Exists (fun l => length l <> length header) body ->
  processCSV N (csv_parse (header :: body)) tr = Some s ->
  result s <> Resolved /\
  (destroyed s = true <-> result s = Rejected ParseError) /\
  (destroyed s = false <-> result s = Pending) /\
  length tr <= 2 * length (good_records header body) + 4 /\
  (forallb succeeds tr = true -> destroyed s = false ->
   exists s', step N s EvError = Some s' /\
              result s' = Rejected ParseError) /\
  (forallb succeeds tr = true ->
   (forall ev, succeeds ev = true -> step N s ev = None) ->
   result s = Rejected ParseError) /\
  (exists j,
     table_rows s = take (j * N) (good_records header body) /\
     j <= length (good_records header body) / N) /\
  (forall ev s2, step N s ev = Some s2 -> committed s `prefix_of` committed s2).
Proof.
  intros HN Hbad Hrun. simpl in *. unfold processCSV in *.
  rewrite (parse_rows_malformed _ _ Hbad) in *.
  set (good := good_records header body) in *.
  assert (parse_failure_inv N good ParseError s) as (_ & j & Hcom & Hj & Inv).
  { eapply (run_invariant N (parse_failure_inv N good ParseError));
      [|by apply parse_failure_inv_init|exact Hrun].
    intros; eapply parse_failure_inv_step; eauto. }
  assert (destroyed s = false ->
          exists s', step N s EvError = Some s' /\
                     result s' = Rejected ParseError) as Hdeliver.
  { intros Hd. rewrite Hd in Inv. destruct Inv as (Hres & todo & Hsrc & _).
    simpl. rewrite Hsrc, first_bad_app, Hd.
    eexists. split; [reflexivity|]. simpl. by rewrite Hres. }
  split_and!.
  - destruct (destroyed s); destruct Inv as [-> _]; done.
  - destruct (destroyed s); destruct Inv as [-> _]; done.
  - destruct (destroyed s); destruct Inv as [-> _]; done.
  - apply run_bounded in Hrun. unfold pending_work in Hrun at 2.
    simpl in Hrun. rewrite length_app, length_fmap in Hrun. simpl in Hrun. lia.
  - intros _. exact Hdeliver.
  - intros _ Hover. destruct (destroyed s) eqn:Hd; [by destruct Inv|].
    destruct (Hdeliver eq_refl) as (s' & Hs' & _).
    by rewrite (Hover EvError eq_refl) in Hs'.
  - exists j. split; [exact Hcom|]. apply Nat.div_le_lower_bound; lia.
  - intros ev s2. apply committed_grows.
Qed.

Lemma malformed_row_fails_load_witness :
  exists s,
    processCSV 2 (csv_parse Sample.broken_lines)
      [EvData; EvData; EvError; EvSettle 0 Done] = Some s /\
    source s = [] /\ batch s = [] /\
    table_rows s = [Sample.alice; Sample.bob] /\
    destroyed s = true /\
    result s = Rejected ParseError.
Proof.
  eexists. split; [vm_compute; reflexivity|].
  do 4 (split; [reflexivity|]).
  refine (proj1 (proj1 (proj2 (malformed_row_fails_load 2 Sample.header
            (tail Sample.broken_lines)
            [EvData; EvData; EvError; EvSettle 0 Done] _ _ _ _))) _).
  - lia.
  - do 3 apply Exists_cons_tl. apply Exists_cons_hd. simpl. lia.
  - vm_compute. reflexivity.
  - reflexivity.
Defined.

(** X1: when nothing overlaps, that is when every bulk insert settles before
    the runtime delivers the next event, a load of [R] records with capacity
    [N] resolves after ceil(R / N) bulk inserts that store the records once
    each, in order, the last insert of [R mod N] records, or of [N] when [N]
    divides [R]. *)
Theorem serial_load_batches N (rows : list row) :
  1 <= N ->
  exists s,
    processCSV N (Row <$> rows) (serial N 0 (Row <$> rows)) = Some s /\
    result s = Resolved /\ inflight s = [] /\ unhandled s = [] /\
    table_rows s = rows /\
    insert_count s = (length rows + N - 1) / N /\
    (0 < length rows ->
     exists b, last (committed s) = Some b /\
       length b = if length rows mod N =? 0 then N else length rows mod N).
Proof.
  intros HN.
  destruct (serial_run N rows HN (init (Row <$> rows))
              eq_refl eq_refl eq_refl eq_refl eq_refl ltac:(simpl; lia) eq_refl)
    as (s & Hrun & Hres & Hin & Hun & Hcom).
  exists s. simpl in Hcom. unfold table_rows, insert_count. rewrite Hcom.
  split; [exact Hrun|]. do 3 (split; [done|]).
  split; [by rewrite batches_concat|].
  split; [by rewrite batches_length by (simpl; lia)|].
  intros HR. by apply (batches_last N [] rows).
Qed.

Lemma serial_load_batches_witness :
  exists s,
    processCSV 2 (csv_parse Sample.three_lines)
      [EvData; EvData; EvSettle 0 Done; EvData; EvEnd; EvSettle 0 Done]
      = Some s /\
    committed s = [[Sample.alice; Sample.bob]; [Sample.carol]] /\
    result s = Resolved.
Proof.
  destruct (serial_load_batches 2 [Sample.alice; Sample.bob; Sample.carol])
    as (s & Hrun & Hres & _); [lia|].
  exists s. split; [exact Hrun|]. split; [|exact Hres].
  vm_compute in Hrun. by injection Hrun as <-.
Defined.

End LoaderClaims.

(** ** The claims about the schema initializer *)

Module SchemaClaims.
Import Schema.

Lemma organizations_columns_distinct :
  bool_decide (NoDup (col_name <$> organizations_columns)) = true.
Proof. vm_compute. reflexivity. Qed.

Lemma customers_columns_distinct :
  bool_decide (NoDup (col_name <$> customers_columns)) = true.
Proof. vm_compute. reflexivity. Qed.

Lemma hasTable_true name (db : database) :
  hasTable name db = true <-> is_Some (db !! name).
Proof. unfold hasTable. apply bool_decide_eq_true. Qed.

Lemma hasTable_false name (db : database) :
  hasTable name db = false <-> db !! name = None.
Proof.
  unfold hasTable. rewrite bool_decide_eq_false.
  by rewrite eq_None_not_Some.
Qed.

(** What one "check and create" block does: nothing when the table is there,
    otherwise it adds the table, empty; it does not fail when the layout has
    no column twice. *)
Lemma ensureTable_spec name cols (db : database) :
  bool_decide (NoDup (col_name <$> cols)) = true ->
  ensureTable name cols db = Ok (with_table name cols db).
Proof.
  intros Hcols. unfold ensureTable, createTable, with_table.
  destruct (hasTable name db) eqn:E; simpl.
  - apply hasTable_true in E as [t ->]. done.
  - rewrite Hcols. apply hasTable_false in E as ->. done.
Qed.

Lemma setupTables_spec (db : database) :
  setupTables db =
  Ok (with_table "customers" customers_columns
        (with_table "organizations" organizations_columns db)).
Proof.
  unfold setupTables.
  rewrite (ensureTable_spec _ _ _ organizations_columns_distinct).
  apply (ensureTable_spec _ _ _ customers_columns_distinct).
Qed.

Lemma with_table_present name cols (db : database) :
  is_Some (with_table name cols db !! name).
Proof.
  unfold with_table. destruct (db !! name) eqn:E; [by rewrite E|].
  rewrite lookup_insert_eq. done.
Qed.

Lemma with_table_keeps name cols (db : database) k t :
  db !! k = Some t -> with_table name cols db !! k = Some t.
Proof.
  intros Hk. unfold with_table. destruct (db !! name) eqn:E; [done|].
  rewrite lookup_insert_ne; [done|]. intros ->. congruence.
Qed.

Lemma with_table_id name cols (db : database) :
  is_Some (db !! name) -> with_table name cols db = db.
Proof. intros [t Ht]. unfold with_table. by rewrite Ht. Qed.

(** C8: [setupTables] never fails; run on what it produced it changes
    nothing, so twice is the same as once; it keeps every table that was
    there, rows included; and on an empty database it leaves exactly the two
    tables [organizations] and [customers], empty, with their layouts. *)
Theorem setupTables_idempotent (db : database) :
  exists db1,
    setupTables db = Ok db1 /\
    setupTables db1 = Ok db1 /\
    (forall name t, db !! name = Some t -> db1 !! name = Some t) /\
    setupTables ∅ =
      Ok (<["customers" := Table customers_columns []]>
            (<["organizations" := Table organizations_columns []]> ∅)) /\
    dom (<["customers" := Table customers_columns []]>
           (<["organizations" := Table organizations_columns []]>
              (∅ : database)))
      = ({["organizations"; "customers"]} : gset String.string).
Proof.
  eexists. split; [apply setupTables_spec|]. split; [|split; [|split]].
  - rewrite setupTables_spec. f_equal.
    rewrite (with_table_id "organizations").
    + apply with_table_id, with_table_present.
    + destruct (with_table_present "organizations" organizations_columns db)
        as [t Ht].
      exists t. by apply with_table_keeps.
  - intros name t Ht. by do 2 apply with_table_keeps.
  - rewrite setupTables_spec. done.
  - rewrite !dom_insert_L, dom_empty_L. set_solver.
Qed.

End SchemaClaims.

(** ** The claim about the fetcher *)

Module FetcherClaims.
Import Fetcher.

(** C10: [downloadFile] resolves for every response whose body is written
    out in full, whatever its status code, and the file then holds the body:
    the status code is never looked at.  So it is for 404 and 500. *)
Theorem download_ignores_status status content url filePath (fs : files) :
  downloadFile (fun _ => Answered (Response status content)) Finish
    url filePath fs
  = (Resolved, <[filePath := content]> fs) /\
  downloadFile (fun _ => Answered (Response 404 content)) Finish
    url filePath fs
  = downloadFile (fun _ => Answered (Response 200 content)) Finish
      url filePath fs /\
  downloadFile (fun _ => Answered (Response 500 content)) Finish
    url filePath fs
  = downloadFile (fun _ => Answered (Response 200 content)) Finish
      url filePath fs.
Proof.
  unfold downloadFile. simpl. by rewrite insert_insert_eq.
Qed.

End FetcherClaims.

(** ** The claim about the orchestrator *)

Module PipelineClaims.
Import Pipeline.

(** C7 does not hold as stated: when [setupTables] rejects, the connection
    has been created and the run ends without [db.destroy()]. *)
Lemma connection_left_open :
  ~ (opened (processDataDump Sample.setup_fails) = true ->
     closed (processDataDump Sample.setup_fails) = true).
Proof. vm_compute. intros H. specialize (H eq_refl). discriminate H. Qed.

Ltac stage_of H :=
  repeat (apply elem_of_cons in H as [->|H]; [simpl in *|]);
  try by apply elem_of_nil in H.

Ltac settled_iff :=
  split;
  [intros Hm; first [discriminate Hm | by split_and!]
  |intros Hc; first [reflexivity | by destruct_and!]].

Ltac aborted_run :=
  split_and!;
  [reflexivity
  |reflexivity
  |let st := fresh "st" in
   let err := fresh "err" in
   let Hin := fresh "Hin" in
   let Hs := fresh "Hs" in
   intros st err Hin Hs; stage_of Hin;
   first [discriminate Hs | by injection Hs as <-]
  |settled_iff
  |settled_iff].

(** C7, amended: a failure at any stage aborts all remaining stages, the
    closing of the connection among them.  The calls a run makes are those of
    the program up to and including the first that does not resolve, and the
    run settles as that call does: when a call that was made rejects, the run
    rejects with its error, that call is the last one made, and the
    connection is not closed.  The connection is closed exactly when every
    awaited call resolved, and it has been created exactly when download and
    extraction resolved. *)
Theorem failure_aborts_remaining_stages (w : world) :
  let t := processDataDump w in
  ran t = calls_until_failure w program /\
  outcome t = first_failure w program /\
  (forall st e,
     st ∈ ran t -> settles w st = Rejected e ->
     outcome t = Rejected e /\ last (ran t) = Some st /\ closed t = false) /\
  (closed t = true <->
   Forall (fun st => settles w st = Resolved) program) /\
  (opened t = true <->
   w_download w = Resolved /\ w_extract w = Resolved).
Proof.
  destruct w as [d x s o c y]. unfold processDataDump, await, createDatabase.
  simpl.
  assert (forall (P : stage -> Prop),
            Forall P program <->
            P Download /\ P Extract /\ P CreateDatabase /\ P SetupTables /\
            P LoadOrganizations /\ P LoadCustomers /\ P Destroy) as Hall.
  { intros P. unfold program. rewrite !Forall_cons, Forall_nil. tauto. }
  rewrite Hall. simpl.
  destruct d; simpl; [aborted_run| |aborted_run].
  destruct x; simpl; [aborted_run| |aborted_run].
  destruct s; simpl; [aborted_run| |aborted_run].
  destruct o; simpl; [aborted_run| |aborted_run].
  destruct c; simpl; [aborted_run| |aborted_run].
  destruct y; simpl; aborted_run.
Qed.

End PipelineClaims.

(** ** Further facts about the loader *)

Module LoaderProperties.
Import Loader Invariants LoaderFacts.

Lemma run_invariant_on N (q : event -> bool) (P : state -> Prop) :
  (forall s ev s', q ev = true -> P s -> step N s ev = Some s' -> P s') ->
  forall tr s s', forallb q tr = true -> P s -> run N s tr = Some s' -> P s'.
Proof.
  intros Hstep tr. induction tr as [|ev tr IH]; intros s s' Hq Hs Hrun;
    simpl in *.
  - by injection Hrun as <-.
  - apply andb_prop in Hq as [Hev Hq].
    destruct (step N s ev) as [s1|] eqn:E; [|done].
    eapply IH; [exact Hq| |exact Hrun]. eapply Hstep; eauto.
Qed.

Lemma unfailed_init N rows : 1 <= N -> unfailed N rows (init (Row <$> rows)).
Proof.
  intros HN. left. do 3 (split; [done|]). exists rows. simpl.
  do 3 (split; [done|]). left. repeat split; auto; lia.
Qed.

Lemma div_full j N : 1 <= N -> (j * N + N - 1) / N = j.
Proof.
  intros HN. symmetry. apply (Nat.div_unique _ _ j (N - 1)); lia.
Qed.

Lemma div_partial j m N : 0 < m < N -> (j * N + m + N - 1) / N = j + 1.
Proof.
  intros Hm. symmetry. apply (Nat.div_unique _ _ (j + 1) (m - 1)); lia.
Qed.

Lemma unfailed_step N rows s ev s' :
  1 <= N -> succeeds ev = true -> unfailed N rows s ->
  step N s ev = Some s' -> unfailed N rows s'.
Proof.
  intros HN Hev Inv H. unfold unfailed, loading, draining in *.
  destruct s as [src fl en de b inf com res unh].
  destruct Inv as [(Hen & Hde & Hres & todo & Hsrc & Hrows & Hlen & Hsh)
                  |(Hen & Hde & Hsrc & Hsh)]; simpl in *; subst.
  - (* before 'end' *)
    destruct ev as [| | |k o].
    + destruct todo as [|r todo]; [done|].
      destruct Hsh as [(-> & -> & Hb)|(-> & _)]; [|done].
      step_cases H; to_arith; rewrite ?length_app in *; simpl in *; [lia|..];
        left; split_and!; try done; exists todo;
        (split; [done|]); (split; [by rewrite <- app_assoc|]); (split; [done|]).
      * right. split_and!; (done || lia).
      * left. split_and!; (done || lia).
    + simpl in H. by rewrite first_bad_rows in H.
    + destruct todo as [|r todo]; [|done]. rewrite app_nil_r in *.
      destruct Hsh as [(-> & -> & Hb)|(-> & -> & Hb)].
      * step_cases H; to_arith; [lia|..]; right; split_and!; try done.
        -- left. split_and!; try done. left. split; [done|]. lia.
        -- destruct b; simpl in *; [|lia]. rewrite app_nil_r in *.
           right. right. left. split_and!; try done.
           by rewrite Hlen, div_full.
      * step_cases H; to_arith; try lia; right; split_and!; try done.
        left. split_and!; try done. by right.
    + simpl in H. destruct (inf !! k) as [i|] eqn:Ek; [|done].
      destruct Hsh as [(-> & -> & Hb)|(-> & -> & Hb)]; [done|].
      destruct k; simpl in Ek; [|done]. injection Ek as <-.
      destruct o; [|done]. injection H as <-. simpl.
      left. split_and!; try done. exists todo. split; [done|].
      rewrite concat_app. simpl. rewrite app_nil_r, <- app_assoc.
      split; [done|]. rewrite !length_app, Hlen. simpl.
      split; [lia|]. left. split_and!; (done || simpl; lia).
  - (* after 'end' *)
    destruct ev as [| | |k o]; try done.
    simpl in H. destruct (inf !! k) as [i|] eqn:Ek; [|done].
    destruct o; [|done]. injection H as <-.
    right.
    destruct Hsh as [(-> & Hrows & Hlen & Hsh)
                    |[(-> & Hrows & Hlen & b' & Hb' & Hsuf & Hsh)
                     |[(-> & -> & -> & _)|(-> & -> & -> & _)]]];
      [| |done|done].
    + destruct Hsh as [(-> & Hb)|(-> & Hb)].
      * destruct k; simpl in Ek; [|done]. injection Ek as <-. simpl.
        split_and!; try done. right. right. left.
        rewrite concat_app. simpl. rewrite app_nil_r.
        split_and!; try done.
        rewrite Hrows, !length_app, Hlen. simpl.
        by rewrite div_partial by lia.
      * assert (length (com ++ [b]) * N = length rows) as Hfull.
        { rewrite Hrows, !length_app, Hlen. simpl. lia. }
        assert (concat (com ++ [b]) = rows) as Hcat.
        { rewrite concat_app. simpl. by rewrite app_nil_r. }
        assert (b `suffix_of` rows) as Hsuf by (rewrite Hrows; by eexists).
        destruct k as [|[|k]]; simpl in Ek; [| |done]; injection Ek as <-;
          simpl; (split_and!; try done); right; left; (split_and!; try done);
          exists b; split_and!; try done; [by left|by right].
    + assert (length (com ++ [b']) = (length rows + N - 1) / N + 1) as Hc.
      { rewrite length_app. simpl. f_equal. rewrite <- Hlen.
        by rewrite div_full. }
      assert (length (com ++ [b']) * N = length rows + N) as Hc2.
      { rewrite length_app. simpl. lia. }
      assert (concat (com ++ [b']) = rows ++ b') as Hcat.
      { rewrite concat_app. simpl. rewrite app_nil_r. by rewrite Hrows. }
      destruct Hsh as [(-> & ->)|(-> & ->)];
        (destruct k; simpl in Ek; [|done]); injection Ek as <-; simpl;
        (split_and!; try done); right; right; right; (split_and!; try done);
        exists b'; split_and!; done.
Qed.

Lemma unfailed_run N rows tr s :
  1 <= N -> forallb succeeds tr = true ->
  processCSV N (Row <$> rows) tr = Some s -> unfailed N rows s.
Proof.
  intros HN Htr Hrun.
  eapply (run_invariant_on N succeeds (unfailed N rows) _ tr
            (init (Row <$> rows))); [exact Htr|by apply unfailed_init|exact Hrun].
  Unshelve. intros; eapply unfailed_step; eauto.
Qed.

Lemma serial_succeeds N fill src : forallb succeeds (serial N fill src) = true.
Proof.
  revert fill. induction src as [|[r|e] src IH]; intros fill; simpl.
  - by destruct (0 <? fill).
  - destruct (N <=? S fill); simpl; apply IH.
  - done.
Qed.

(** X2: a load none of whose bulk inserts fails, once resolved, has stored the
    records of the source in order, once each, in ceil(R / N) inserts; or,
    only when the capacity divides the number of records, once each followed
    by the last full batch a second time, in one insert more. *)
Theorem unfailed_load_table N rows tr s :
  1 <= N -> forallb succeeds tr = true ->
  processCSV N (Row <$> rows) tr = Some s ->
  result s = Resolved ->
  (table_rows s = rows /\ insert_count s = (length rows + N - 1) / N) \/
  (length rows mod N = 0 /\ 0 < length rows /\
   insert_count s = (length rows + N - 1) / N + 1 /\
   exists b, length b = N /\ b `suffix_of` rows /\ table_rows s = rows ++ b).
Proof.
  intros HN Htr Hrun Hres.
  destruct (unfailed_run N rows tr s HN Htr Hrun)
    as [(_ & _ & Hp & _)|(_ & _ & _ & Hsh)]; [congruence|].
  unfold table_rows, insert_count.
  destruct Hsh as [(Hp & _)|[(_ & Hcat & Hlen & _)
                  |[(_ & _ & _ & Hcat & Hlen)
                   |(_ & _ & _ & Hc & Hc2 & b & Hb & Hsuf & Hcat)]]].
  - congruence.
  - left. split; [done|]. by rewrite <- Hlen, div_full.
  - by left.
  - right. split_and!; try done.
    + replace (length rows) with ((length (committed s) - 1) * N) by lia.
      apply Nat.Div0.mod_mul.
    + apply suffix_length in Hsuf. lia.
    + by exists b.
Qed.

Lemma unfailed_load_table_witness :
  exists s,
    processCSV 2 (csv_parse Sample.three_lines)
      [EvData; EvData; EvSettle 0 Done; EvData; EvEnd; EvSettle 0 Done]
      = Some s /\
    result s = Resolved /\
    ((table_rows s = [Sample.alice; Sample.bob; Sample.carol] /\
      insert_count s = (3 + 2 - 1) / 2) \/
     (3 mod 2 = 0 /\ 0 < 3 /\ insert_count s = (3 + 2 - 1) / 2 + 1 /\
      exists b, length b = 2 /\
        b `suffix_of` [Sample.alice; Sample.bob; Sample.carol] /\
        table_rows s = [Sample.alice; Sample.bob; Sample.carol] ++ b)).
Proof.
  eexists. split; [vm_compute; reflexivity|]. split; [reflexivity|].
  apply (unfailed_load_table 2 [Sample.alice; Sample.bob; Sample.carol]
           [EvData; EvData; EvSettle 0 Done; EvData; EvEnd; EvSettle 0 Done]);
    [lia | reflexivity | vm_compute; reflexivity | reflexivity].
Defined.

(** X3: a load none of whose bulk inserts has failed is never stuck: from
    every state it can reach, some further events, none of them a failure,
    resolve it with no insert left outstanding. *)
Theorem unfailed_load_can_finish N rows tr s :
  1 <= N -> forallb succeeds tr = true ->
  processCSV N (Row <$> rows) tr = Some s ->
  exists tr' s',
    forallb succeeds tr' = true /\ run N s tr' = Some s' /\
    result s' = Resolved /\ inflight s' = [].
Proof.
  intros HN Htr Hrun.
  destruct (unfailed_run N rows tr s HN Htr Hrun) as [Hl|Hd].
  - destruct s as [src fl en de b inf com res unh].
    destruct Hl as (Hen & Hde & Hres & todo & Hsrc & _ & _ & Hsh).
    simpl in *. subst.
    destruct Hsh as [(-> & -> & Hb)|(-> & -> & Hb)].
    + destruct (serial_run N todo HN
                  (State (Row <$> todo) true false false b [] com Pending unh)
                  eq_refl eq_refl eq_refl eq_refl eq_refl Hb eq_refl)
        as (s' & Hr & Hres & Hin & _).
      exists (serial N (length b) (Row <$> todo)), s'.
      split; [apply serial_succeeds|done].
    + destruct (serial_run N todo HN
                  (State (Row <$> todo) true false false [] [] (com ++ [b])
                     Pending unh)
                  eq_refl eq_refl eq_refl eq_refl eq_refl
                  ltac:(simpl; lia) eq_refl)
        as (s' & Hr & Hres & Hin & _).
      exists (EvSettle 0 Done :: serial N 0 (Row <$> todo)), s'.
      split; [apply serial_succeeds|]. simpl in *. done.
  - destruct s as [src fl en de b inf com res unh].
    destruct Hd as (Hen & Hde & Hsrc & Hsh). simpl in *. subst.
    destruct Hsh as [(-> & _ & _ & [(-> & _)|(-> & _)])
                    |[(-> & _ & _ & b' & _ & _ & [(-> & ->)|(-> & ->)])
                     |[(-> & -> & -> & _)|(-> & -> & -> & _)]]].
    + exists [EvSettle 0 Done]. eexists. split; [done|]. split; [reflexivity|done].
    + exists [EvSettle 0 Done; EvSettle 0 Done]. eexists.
      split; [done|]. split; [reflexivity|done].
    + exists [EvSettle 0 Done]. eexists. split; [done|]. split; [reflexivity|done].
    + exists [EvSettle 0 Done]. eexists. split; [done|]. split; [reflexivity|done].
    + exists []. eexists. split; [done|]. split; [reflexivity|done].
    + exists []. eexists. split; [done|]. split; [reflexivity|done].
Qed.

Lemma unfailed_load_can_finish_witness :
  exists tr' s',
    forallb succeeds tr' = true /\
    run 2 (State [Row Sample.carol] false false false
             [Sample.alice; Sample.bob]
             [Insert [Sample.alice; Sample.bob] OnData] [] Pending [])
        tr' = Some s' /\
    result s' = Resolved /\ inflight s' = [].
Proof.
  apply (unfailed_load_can_finish 2
           [Sample.alice; Sample.bob; Sample.carol] [EvData; EvData]);
    [lia | reflexivity | vm_compute; reflexivity].
Defined.

Lemma accounted_init rows : accounted rows (init (Row <$> rows)).
Proof.
  unfold accounted, table_rows. simpl. split_and!; try done.
  - intros i Hi. by apply elem_of_nil in Hi.
  - exists [], rows. split_and!; try done. intros r Hr. by apply elem_of_nil in Hr.
  - intros i Hi. by apply elem_of_nil in Hi.
  - intros r [Hr|Hr]; by apply elem_of_nil in Hr.
  - intros i r Hi. by apply elem_of_nil in Hi.
Qed.

(** Membership goals about the outstanding inserts after a listener ran. *)
Ltac inflight_cases :=
  repeat match goal with
    | H : _ ∈ [] |- _ => by apply elem_of_nil in H
    | H : _ ∈ [_] |- _ => apply list_elem_of_singleton in H; subst; simpl in *
    | H : _ ∈ _ ++ _ |- _ => apply elem_of_app in H as [H|H]
    end.

Lemma accounted_step N rows s ev s' :
  reads_gated s -> accounted rows s -> step N s ev = Some s' ->
  accounted rows s'.
Proof.
  intros Hg (Hde & Hen & Hoe & (done & todo & Hrows & Hsrc & Hdone)
             & Hsnap & Hfrom & Hfly & Hres) H.
  unfold accounted, table_rows, reads_gated in *.
  destruct s as [src fl en de b inf com res unh]. simpl in *. subst.
  destruct ev as [| | |k o].
  - (* 'data' *)
    destruct todo as [|r todo]; [done|].
    assert (en = false) as -> by (destruct en; [by specialize (Hen eq_refl)|done]).
    assert (res <> Resolved) as Hnr by (intros ->; by destruct Hres).
    assert (forall x, x ∈ b ++ [r] -> x ∈ done ++ r :: todo) as Hb.
    { intros x Hx. inflight_cases.
      - apply Hfrom; auto.
      - apply elem_of_app. right. by left. }
    assert (forall x, x ∈ done ++ [r] -> x ∈ concat com \/ x ∈ b ++ [r]) as Hd.
    { intros x Hx. rewrite elem_of_app. inflight_cases.
      - destruct (Hdone x Hx); auto.
      - right. right. by left. }
    step_cases H; to_arith; subst fl;
      (destruct (Hg eq_refl ltac:(done)) as [_ Hin]; rewrite (Hin eq_refl) in *);
      simpl; split_and!; try done;
      try (by exists (done ++ [r]), todo; rewrite <- app_assoc);
      try (intros i Hi; inflight_cases; by auto);
      try (intros x [Hx|Hx]; [apply Hfrom; by left|by apply Hb]);
      try (intros i x Hi Hx;
           first [by apply elem_of_nil in Hi
                 |apply list_elem_of_singleton in Hi; subst; by apply Hb]).
  - (* 'error': the source holds records only *)
    simpl in H. by rewrite first_bad_rows in H.
  - (* 'end' *)
    destruct todo as [|r todo]; [|done].
    step_cases H; simpl; split_and!; try done;
      try (by exists done, []);
      try (intros i Hi; inflight_cases; by auto);
      try (intros i x Hi Hx; inflight_cases; [by eapply Hfly|apply Hfrom; by right]).
    intros _. split; [|done]. to_arith. destruct b; [done|simpl in *; lia].
  - (* an insert settles *)
    simpl in H. destruct (inf !! k) as [i|] eqn:Ek; [|done].
    assert (i ∈ inf) as Hi by (by eapply list_elem_of_lookup_2).
    assert (forall x, x ∈ delete k inf -> x ∈ inf) as Hsub
      by (intros x; apply list_elem_of_delete_inv).
    destruct o as [|e]; injection H as <-.
    + assert (forall x, x ∈ concat com \/ x ∈ b -> x ∈ concat (com ++ [ins_rows i]))
        as Hkeep.
      { intros x [Hx|Hx]; rewrite concat_app, elem_of_app; [by left|right].
        simpl. rewrite app_nil_r. destruct (Hsnap i Hi) as [->| ->]; [|done].
        by apply elem_of_nil in Hx. }
      assert (forall x, x ∈ concat (com ++ [ins_rows i]) -> x ∈ done ++ todo)
        as Hin.
      { intros x. rewrite concat_app, elem_of_app. simpl. rewrite app_nil_r.
        intros [Hx|Hx]; [apply Hfrom; by left|by eapply Hfly]. }
      destruct (ins_from i) eqn:Ef; simpl; split_and!; auto;
        try (by exists done, todo; split_and!; auto; intros x Hx; left; auto);
        try (intros x [Hx|Hx]; [by apply Hin|by apply elem_of_nil in Hx]);
        try (intros i' x Hi' Hx; exact (Hfly i' x (Hsub i' Hi') Hx));
        try (intros i' Hi'; apply Hoe; by apply Hsub).
      * intros Hr. split; [done|]. by apply Hres.
      * intros _. split; [done|]. apply Hen. eauto.
    + simpl. split_and!; auto.
      * intros i' Hi'; apply Hoe; by apply Hsub.
      * by exists done, todo.
      * intros i' x Hi' Hx; exact (Hfly i' x (Hsub i' Hi') Hx).
Qed.

Lemma accounted_run N rows tr s :
  processCSV N (Row <$> rows) tr = Some s -> accounted rows s.
Proof.
  intros Hrun.
  enough (reads_gated s /\ accounted rows s) as [_ H] by exact H.
  eapply (run_invariant N (fun s => reads_gated s /\ accounted rows s) _ tr
            (init (Row <$> rows)));
    [split; [apply reads_gated_init|apply accounted_init]|exact Hrun].
  Unshelve. intros s0 ev s1 [Hg Ha] Hstep. split.
  - eapply reads_gated_step; eauto.
  - eapply accounted_step; eauto.
Qed.

(** X4: in every load, whatever the schedule and whichever inserts fail, the
    table holds records of the source only; and when the load resolves, it
    holds every record of the source. *)
Theorem resolved_load_stored_every_record N rows tr s :
  processCSV N (Row <$> rows) tr = Some s ->
  (forall r, r ∈ table_rows s -> r ∈ rows) /\
  (result s = Resolved -> forall r, r ∈ rows -> r ∈ table_rows s).
Proof.
  intros Hrun.
  destruct (accounted_run N rows tr s Hrun)
    as (_ & _ & _ & (done & todo & Hrows & Hsrc & Hdone) & _ & Hfrom & _ & Hres).
  split; [intros r Hr; apply Hfrom; by left|].
  intros Hr r Hin. destruct (Hres Hr) as [Hb Hs].
  rewrite Hs in Hsrc. destruct todo; [|done].
  rewrite app_nil_r in Hrows. subst rows.
  destruct (Hdone r Hin) as [H|H]; [done|].
  rewrite Hb in H. by apply elem_of_nil in H.
Qed.

Lemma resolved_load_stored_every_record_witness :
  exists s,
    processCSV 2 (Row <$> [Sample.alice; Sample.bob])
      [EvData; EvData; EvEnd; EvSettle 0 (Failed StorageError);
       EvSettle 0 Done] = Some s /\
    result s = Resolved /\
    (forall r, r ∈ [Sample.alice; Sample.bob] -> r ∈ table_rows s).
Proof.
  eexists. split; [vm_compute; reflexivity|]. split; [reflexivity|].
  refine (proj2 (resolved_load_stored_every_record 2
            [Sample.alice; Sample.bob]
            [EvData; EvData; EvEnd; EvSettle 0 (Failed StorageError);
             EvSettle 0 Done] _ _) _);
    [vm_compute; reflexivity | reflexivity].
Defined.

Lemma inserts_sized_step N s ev s' :
  1 <= N -> batch_bounded N s -> inserts_sized N s ->
  step N s ev = Some s' -> inserts_sized N s'.
Proof.
  intros HN [Hle Hlt] [Hfly Hcom] H.
  unfold inserts_sized in *.
  destruct s as [src fl en de b inf com res unh]. simpl in *.
  destruct ev as [| | |k o].
  - step_cases H; to_arith; (split; [|done]); try done.
    intros x Hx. inflight_cases; [by apply Hfly|].
    destruct de; [done|].
    specialize (Hlt eq_refl eq_refl ltac:(done)).
    rewrite length_app in *. simpl in *. lia.
  - step_cases H; done.
  - step_cases H; to_arith; (split; [|done]); try done.
    intros x Hx. inflight_cases; [by apply Hfly|]. lia.
  - simpl in H. destruct (inf !! k) as [i|] eqn:Ek; [|done].
    assert (i ∈ inf) as Hi by (by eapply list_elem_of_lookup_2).
    assert (forall x, x ∈ delete k inf -> 1 <= length (ins_rows x) <= N) as Hsub
      by (intros x Hx; by apply Hfly, (list_elem_of_delete_inv x k)).
    destruct o as [|e]; injection H as <-; [|done].
    destruct (ins_from i); simpl; (split; [done|]);
      intros x Hx; inflight_cases; auto.
Qed.

(** X5: with a capacity [N] of at least one, every bulk insert a load makes,
    outstanding or completed, is of at least one record and of at most [N],
    whatever the schedule. *)
Theorem bulk_inserts_sized N src tr s :
  1 <= N ->
  processCSV N src tr = Some s ->
  (forall i, i ∈ inflight s -> 1 <= length (ins_rows i) <= N) /\
  (forall b, b ∈ committed s -> 1 <= length b <= N).
Proof.
  intros HN Hrun.
  enough (batch_bounded N s /\ inserts_sized N s) as [_ H] by exact H.
  assert (forall s0 ev s1,
            batch_bounded N s0 /\ inserts_sized N s0 ->
            step N s0 ev = Some s1 ->
            batch_bounded N s1 /\ inserts_sized N s1) as Hstep.
  { intros s0 ev s1 [Hb Hi] Hstep. split.
    - eapply batch_bounded_step; eauto.
    - eapply inserts_sized_step; eauto. }
  eapply (run_invariant N _ Hstep tr (init src)); [|exact Hrun].
  split; [by apply batch_bounded_init|].
  split; intros x Hx; by apply elem_of_nil in Hx.
Qed.

Lemma bulk_inserts_sized_witness :
  exists s,
    processCSV 2 (csv_parse Sample.four_lines)
      [EvData; EvData; EvSettle 0 Done; EvData; EvData; EvEnd] = Some s /\
    length (inflight s) = 2 /\
    (forall i, i ∈ inflight s -> 1 <= length (ins_rows i) <= 2) /\
    (forall b, b ∈ committed s -> 1 <= length b <= 2).
Proof.
  eexists. split; [vm_compute; reflexivity|]. split; [reflexivity|].
  apply (bulk_inserts_sized 2 (csv_parse Sample.four_lines)
           [EvData; EvData; EvSettle 0 Done; EvData; EvData; EvEnd]);
    [lia | vm_compute; reflexivity].
Defined.

Lemma inserts_few_step N s ev s' :
  reads_gated s -> inserts_few s -> step N s ev = Some s' -> inserts_few s'.
Proof.
  intros Hg (Hen & H1 & H2) H. unfold inserts_few, reads_gated in *.
  destruct s as [src fl en de b inf com res unh]. simpl in *.
  destruct ev as [| | |k o].
  - step_cases H; to_arith; subst;
      (assert (en = false) as -> by (destruct en; [by specialize (Hen eq_refl)|done]));
      (destruct de; [done|]);
      (destruct (Hg eq_refl ltac:(done)) as [_ Hin]; rewrite (Hin eq_refl));
      simpl; split_and!; (done || lia).
  - step_cases H; split_and!; (done || auto).
  - step_cases H; to_arith; subst; destruct en; try done;
      specialize (H1 eq_refl); rewrite ?length_app; simpl;
      split_and!; (done || lia).
  - simpl in H. destruct (inf !! k) as [i|] eqn:Ek; [|done].
    assert (length (delete k inf) <= length inf) as Hdel.
    { apply sublist_length, sublist_delete. }
    destruct o as [|e]; injection H as <-; [destruct (ins_from i)|]; simpl;
      split_and!; auto; try lia; intros He; specialize (H1 He); lia.
Qed.

(** X6: a load has at most two bulk inserts outstanding at any time, and at
    most one until the stream has emitted 'end'. *)
Theorem outstanding_inserts_bounded N src tr s :
  processCSV N src tr = Some s ->
  length (inflight s) <= 2 /\
  (ended s = false -> length (inflight s) <= 1).
Proof.
  intros Hrun.
  enough (reads_gated s /\ inserts_few s) as [_ (_ & H1 & H2)] by done.
  assert (forall s0 ev s1,
            reads_gated s0 /\ inserts_few s0 ->
            step N s0 ev = Some s1 ->
            reads_gated s1 /\ inserts_few s1) as Hstep.
  { intros s0 ev s1 [Hg Hf] Hstep. split.
    - eapply reads_gated_step; eauto.
    - eapply inserts_few_step; eauto. }
  eapply (run_invariant N _ Hstep tr (init src)); [|exact Hrun].
  split; [apply reads_gated_init|]. unfold inserts_few. simpl.
  split_and!; (done || lia).
Qed.

Lemma outstanding_inserts_bounded_witness :
  exists s,
    processCSV 2 (csv_parse Sample.four_lines)
      [EvData; EvData; EvSettle 0 Done; EvData; EvData; EvEnd] = Some s /\
    length (inflight s) = 2 /\
    length (inflight s) <= 2 /\
    (ended s = false -> length (inflight s) <= 1).
Proof.
  eexists. split; [vm_compute; reflexivity|]. split; [reflexivity|].
  apply (outstanding_inserts_bounded 2 (csv_parse Sample.four_lines)
           [EvData; EvData; EvSettle 0 Done; EvData; EvData; EvEnd]).
  vm_compute. reflexivity.
Defined.

(** X7: nothing a load has stored is ever taken back: along every run, from
    any state, the completed bulk inserts of the earlier state are the first
    completed bulk inserts of the later one. *)
Theorem stored_batches_stay N s tr s' :
  run N s tr = Some s' -> committed s `prefix_of` committed s'.
Proof.
  revert s. induction tr as [|ev tr IH]; intros s Hrun; simpl in Hrun.
  - by injection Hrun as <-.
  - destruct (step N s ev) as [s1|] eqn:E; [|done].
    etrans; [eapply committed_grows; eauto|by apply IH].
Qed.

Lemma stored_batches_stay_witness :
  exists s s',
    processCSV 2 (csv_parse Sample.five_lines)
      [EvData; EvData; EvSettle 0 Done] = Some s /\
    run 2 s [EvData; EvData; EvSettle 0 (Failed StorageError)] = Some s' /\
    committed s = [[Sample.alice; Sample.bob]] /\
    committed s `prefix_of` committed s'.
Proof.
  eexists _, _. split; [vm_compute; reflexivity|].
  split; [vm_compute; reflexivity|]. split; [reflexivity|].
  eapply (stored_batches_stay 2 _
            [EvData; EvData; EvSettle 0 (Failed StorageError)]).
  vm_compute. reflexivity.
Defined.

(** X8: the promise of a load is rejected by the 'error' listener only, so
    the load of a source that parses without failure is never rejected,
    whatever its bulk inserts do. *)
Theorem load_rejected_by_parser_only N rows tr s e :
  processCSV N (Row <$> rows) tr = Some s -> result s <> Rejected e.
Proof. apply rejected_only_by_parser. Qed.

Lemma load_rejected_by_parser_only_witness :
  exists s,
    processCSV 2 (Row <$> [Sample.alice; Sample.bob; Sample.carol])
      [EvData; EvData; EvSettle 0 (Failed StorageError)] = Some s /\
    unhandled s = [StorageError] /\
    result s <> Rejected StorageError.
Proof.
  eexists. split; [vm_compute; reflexivity|]. split; [reflexivity|].
  apply (load_rejected_by_parser_only 2
           [Sample.alice; Sample.bob; Sample.carol]
           [EvData; EvData; EvSettle 0 (Failed StorageError)]).
  vm_compute. reflexivity.
Defined.

(** X9: when a bulk insert fails while records of the source remain to be
    read, the load halts: the stream stays paused, so no further record is
    read and no further insert is made, no event can follow, and the promise
    of the load stays pending. *)
Theorem failed_insert_halts_load N rows tr s k e s' :
  processCSV N (Row <$> rows) tr = Some s ->
  source s <> [] ->
  step N s (EvSettle k (Failed e)) = Some s' ->
  result s' = Pending /\ inflight s' = [] /\ committed s' = committed s /\
  forall ev, step N s' ev = None.
Proof.
  intros Hrun Hsrc H.
  assert (reads_gated s) as Hg.
  { eapply (run_invariant N reads_gated); [apply reads_gated_step| |exact Hrun].
    apply reads_gated_init. }
  destruct (accounted_run N rows tr s Hrun)
    as (Hde & _ & _ & (done & todo & _ & Htodo & _) & _ & _ & _ & Hres).
  assert (result s = Pending) as Hp.
  { destruct (result s) as [| |e'] eqn:Er; [done| |].
    - by destruct (Hres eq_refl).
    - by apply (rejected_only_by_parser N rows tr s e') in Hrun. }
  destruct (Hg Hde Hsrc) as [Hlen Hfl].
  destruct s as [src fl en de b inf com res unh]. simpl in *. subst.
  destruct (inf !! k) as [i|] eqn:Ek; [|done]. injection H as <-. simpl.
  destruct inf as [|i0 [|i1 inf]]; simpl in *; [done| |lia].
  destruct k; simpl in *; [|done].
  destruct fl; [by specialize (Hfl eq_refl)|].
  split_and!; try done.
  intros [| | |k' o]; simpl; try done.
  - destruct todo; done.
  - by rewrite first_bad_rows.
  - destruct todo; done.
Qed.

Lemma failed_insert_halts_load_witness :
  exists s s',
    processCSV 2 (Row <$> [Sample.alice; Sample.bob; Sample.carol])
      [EvData; EvData] = Some s /\
    step 2 s (EvSettle 0 (Failed StorageError)) = Some s' /\
    source s' = [Row Sample.carol] /\
    result s' = Pending /\ inflight s' = [] /\ committed s' = committed s /\
    forall ev, step 2 s' ev = None.
Proof.
  eexists _, _. split; [vm_compute; reflexivity|].
  split; [vm_compute; reflexivity|]. split; [reflexivity|].
  eapply (failed_insert_halts_load 2 [Sample.alice; Sample.bob; Sample.carol]
            [EvData; EvData] _ 0 StorageError);
    [vm_compute; reflexivity | done | vm_compute; reflexivity].
Defined.

End LoaderProperties.

(** ** Further facts about the schema initializer *)

Module SchemaProperties.
Import Schema SchemaClaims.

Lemma with_table_dom name cols (db : database) :
  dom (with_table name cols db) = dom db ∪ {[name]}.
Proof.
  unfold with_table. destruct (db !! name) as [t|] eqn:E.
  - apply (elem_of_dom_2 db) in E. apply set_eq. intros k.
    rewrite elem_of_union, elem_of_singleton.
    split; [by left|]. by intros [?| ->].
  - rewrite dom_insert_L. apply (comm_L (∪)).
Qed.

Lemma with_table_other name cols (db : database) k :
  k <> name -> with_table name cols db !! k = db !! k.
Proof.
  intros Hk. unfold with_table. destruct (db !! name); [done|].
  by rewrite lookup_insert_ne.
Qed.

Lemma with_table_new name cols (db : database) :
  db !! name = None -> with_table name cols db !! name = Some (Table cols []).
Proof. intros E. unfold with_table. rewrite E. apply lookup_insert_eq. Qed.

(** X10: whenever [setupTables] succeeds it has added the tables
    [organizations] and [customers] where they were missing, each empty and
    with the layout of the source, and has done nothing else: the tables
    afterwards are those before and these two, and every table of another
    name is as it was. *)
Theorem setupTables_adds_only_its_tables (db db1 : database) :
  setupTables db = Ok db1 ->
  dom db1 = dom db ∪ {["organizations"; "customers"]} /\
  (forall name, name <> "organizations" -> name <> "customers" ->
                db1 !! name = db !! name) /\
  (forall t, db !! "organizations" = Some t ->
             db1 !! "organizations" = Some t) /\
  (forall t, db !! "customers" = Some t -> db1 !! "customers" = Some t) /\
  (db !! "organizations" = None ->
   db1 !! "organizations" = Some (Table organizations_columns [])) /\
  (db !! "customers" = None ->
   db1 !! "customers" = Some (Table customers_columns [])).
Proof.
  rewrite setupTables_spec. intros [= <-]. split_and!.
  - rewrite !with_table_dom. by rewrite <- (assoc_L (∪)).
  - intros name Ho Hc. by rewrite !with_table_other.
  - intros t Ht. by do 2 apply with_table_keeps.
  - intros t Ht. by do 2 apply with_table_keeps.
  - intros E. rewrite with_table_other by done. by apply with_table_new.
  - intros E. apply with_table_new. by rewrite with_table_other.
Qed.

Lemma setupTables_adds_only_its_tables_witness :
  exists db1,
    setupTables {["customers" := Table customers_columns [Sample.alice]]}
      = Ok db1 /\
    db1 !! "customers" = Some (Table customers_columns [Sample.alice]) /\
    db1 !! "organizations" = Some (Table organizations_columns []).
Proof.
  eexists. split; [apply setupTables_spec|].
  pose proof (setupTables_adds_only_its_tables
                {["customers" := Table customers_columns [Sample.alice]]}
                _ (setupTables_spec _))
    as (_ & _ & _ & Hc & Ho & _).
  split; [by apply Hc|by apply Ho].
Defined.

End SchemaProperties.

(** ** Further facts about the fetcher *)

Module FetcherProperties.
Import Fetcher.



End FetcherProperties.

(** ** Further facts about the orchestrator *)

Module PipelineProperties.
Import Pipeline.

Ltac not_in_list H :=
  repeat (apply elem_of_cons in H as [H|H]; [discriminate H|]);
  by apply elem_of_nil in H.

Ltac in_list :=
  by repeat first [apply list_elem_of_here | apply list_elem_of_further].

Ltac stage_iff :=
  split;
  [intros Hm;
   first [by split_and!
         |exfalso; first [discriminate Hm | not_in_list Hm]]
  |intros Hc; first [reflexivity | in_list | destruct_and!; discriminate]].

(** X12: [processDataDump] makes a call only after every call before it has
    resolved: the connection is created exactly when download and extraction
    resolved, a load starts exactly when also the schema was set up, the
    second load exactly when also the first resolved, [db.destroy()] is
    called exactly when also the second load resolved, and the connection is
    closed exactly when all six awaited calls resolved. *)
Theorem stages_wait_for_earlier (w : world) :
  let t := processDataDump w in
  (opened t = true <->
   w_download w = Resolved /\ w_extract w = Resolved) /\
  (LoadOrganizations ∈ ran t <->
   w_download w = Resolved /\ w_extract w = Resolved /\
   w_setup w = Resolved) /\
  (LoadCustomers ∈ ran t <->
   w_download w = Resolved /\ w_extract w = Resolved /\
   w_setup w = Resolved /\ w_organizations w = Resolved) /\
  (Destroy ∈ ran t <->
   w_download w = Resolved /\ w_extract w = Resolved /\
   w_setup w = Resolved /\ w_organizations w = Resolved /\
   w_customers w = Resolved) /\
  (closed t = true <->
   w_download w = Resolved /\ w_extract w = Resolved /\
   w_setup w = Resolved /\ w_organizations w = Resolved /\
   w_customers w = Resolved /\ w_destroy w = Resolved).
Proof.
  destruct w as [d x s o c y]. unfold processDataDump, await, createDatabase.
  simpl.
  destruct d; simpl; [split_and!; stage_iff| |split_and!; stage_iff].
  destruct x; simpl; [split_and!; stage_iff| |split_and!; stage_iff].
  destruct s; simpl; [split_and!; stage_iff| |split_and!; stage_iff].
  destruct o; simpl; [split_and!; stage_iff| |split_and!; stage_iff].
  destruct c; simpl; [split_and!; stage_iff| |split_and!; stage_iff].
  destruct y; simpl; split_and!; stage_iff.
Qed.

End PipelineProperties.
